(** * tess-locator: the FFI listing catalog and the WCS catalog

    A shallow embedding of [tess_locator/catalog.py] and
    [tess_locator/wcs_catalog.py], followed by the properties of the
    catalogs that the specification states.

    Python objects are embedded as follows.
    - [int] is [Z]; [str] is [string], compared as Python compares strings:
      lexicographically, character by character ([String.leb]; on UTF-8
      bytes this is the order of the code points).
    - A DataFrame is the list of its rows, a row a record of its columns.
    - An exception is a value of [exn]; a function that may raise returns a
      [result]; a function that also reads or writes files, logs or queries
      the archive is a computation [Py A] over the [World].
    - The remote services, the third-party libraries and the package
      constants that live outside the two modules ([SECTORS], [DATADIR],
      [imagelist.list_images], the TAP service, astropy's [Time] and [WCS],
      the regular-expression engine) are the fields of one record [Env]. *)

From Stdlib Require Import ZArith String Ascii List Floats.
From stdpp Require Import base decidable option list list_numbers sorting
  strings pretty gmap.

Open Scope string_scope.
Open Scope list_scope.
Open Scope Z_scope.

(** ** Exceptions and results *)

Inductive exn : Type :=
  | IndexError        (* sequence index out of range *)
  | ValueError        (* conversion of a missing value *)
  | TypeError         (* comparison of a str with a missing value *)
  | UpstreamError (msg : string). (* raised inside an external service *)

Inductive result (A : Type) : Type :=
  | Return (a : A)
  | Raise (e : exn).
Arguments Return {A} a.
Arguments Raise {A} e.

Definition result_bind {A B} (f : A → result B) (r : result A) : result B :=
  match r with
  | Return a => f a
  | Raise e => Raise e
  end.

Global Instance result_ret : MRet result := λ A a, Return a.
Global Instance result_mbind : MBind result := λ A B f r, result_bind f r.

(** [mapM] over a column: the first failing cell raises. *)
Fixpoint result_mapM {A B} (f : A → result B) (l : list A) : result (list B) :=
  match l with
  | [] => Return []
  | x :: l' =>
      match f x with
      | Raise e => Raise e
      | Return y =>
          match result_mapM f l' with
          | Raise e => Raise e
          | Return ys => Return (y :: ys)
          end
      end
  end.

(** ** Python sequences and strings *)

(** [l[0]] *)
Definition py_first {A} (l : list A) : result A :=
  match l with
  | [] => Raise IndexError
  | x :: _ => Return x
  end.

(** [l[-1]] *)
Definition py_last {A} (l : list A) : result A :=
  match last l with
  | None => Raise IndexError
  | Some x => Return x
  end.

(** [l[i]] for a non-negative [i] *)
Definition py_index {A} (l : list A) (i : nat) : result A :=
  match l !! i with
  | None => Raise IndexError
  | Some x => Return x
  end.

(** [a <= b] and [a >= b] on [str] *)
Definition str_le (a b : string) : bool := String.leb a b.
Definition str_ge (a b : string) : bool := String.leb b a.

(** [s.split("/")[-1]]: what follows the last slash. *)
Fixpoint last_segment (s : string) : string :=
  match s with
  | EmptyString => EmptyString
  | String c s' =>
      if existsb (Ascii.eqb "/"%char) (list_ascii_of_string s')
      then last_segment s'
      else if Ascii.eqb c "/"%char then s' else s
  end.

(** [s[:n]] *)
Definition str_slice_stop (n : nat) (s : string) : string := substring 0 n s.

(** Zeros in front, up to [width] characters. *)
Definition zero_pad (width : nat) (s : string) : string :=
  string_of_list_ascii (replicate (width - String.length s) "0"%char) +:+ s.

(** [f"{z:04d}"]: the sign counts towards the width. *)
Definition format_04d (z : Z) : string :=
  if decide (z < 0) then "-" +:+ zero_pad 3 (pretty (- z)) else zero_pad 4 (pretty z).

(** [Path(d) / Path(f)] *)
Definition path_join (d f : string) : string := d +:+ "/" +:+ f.

(** ** [functools.lru_cache]

    The cache keeps the [maxsize] most recently used entries, most recent
    first. A call that raises stores nothing. *)

Module Lru.
Section lru.
Context {K V : Type} `{EqDecision K}.

Definition t := list (K * V).

Definition find (k : K) (c : t) : option V :=
  (λ iv, iv.2.2) <$> list_find (λ kv, kv.1 = k) c.

Definition remove (k : K) (c : t) : t :=
  filter (λ kv, kv.1 ≠ k) c.

(** A hit moves the entry to the front. *)
Definition touch (k : K) (v : V) (c : t) : t := (k, v) :: remove k c.

(** A miss stores the entry in front and drops the oldest ones. *)
Definition store (maxsize : nat) (k : K) (v : V) (c : t) : t :=
  take maxsize ((k, v) :: remove k c).

(** A call of a function of one argument under [lru_cache(maxsize)]. *)
Definition memo (maxsize : nat) (f : K → result V) (k : K) (c : t) : result V * t :=
  match find k c with
  | Some v => (Return v, touch k v c)
  | None =>
      match f k with
      | Return v => (Return v, store maxsize k v c)
      | Raise e => (Raise e, c)
      end
  end.
End lru.
Arguments t : clear implicits.
End Lru.

(** ** Tables *)

(** A record of the archive's answer: [access_url, t_min, t_max]. *)
Module Obs.
Record t := mk { access_url : string; t_min : float; t_max : float }.
End Obs.

(** A row of a per-sector FFI listing. *)
Module FfiRow.
Record t := mk {
  filename : string;
  sector : Z;
  camera : Z;
  ccd : Z;
  start : string;
  stop : string
}.
End FfiRow.

(** An image as [imagelist.list_images] returns it. *)
Module TessImage.
Record t := mk { filename : string; begin : string; end_ : string }.
End TessImage.

(** A row of the WCS catalog. *)
Module WcsRow.
Record t := mk {
  sector : Z;
  camera : Z;
  ccd : Z;
  begin : string;
  end_ : string;
  wcs : string
}.
Definition key (r : t) : Z * Z * Z := (sector r, camera r, ccd r).
End WcsRow.

(** A row of the frame [get_sector_dates] returns: the index is the sector;
    [end_] is [None] where the join found no partner (a missing value). *)
Module DateRow.
Record t := mk { Index : Z; begin : string; end_ : option string }.
End DateRow.

(** An astropy [WCS] object, known by the header it was built from. *)
Module Wcs.
Record t := mk { header : string }.
End Wcs.

(** An astropy [Time] object, known by its [iso] attribute. *)
Module Time.
Record t := mk { iso : string }.
End Time.

(** What a Parquet file holds. *)
Inductive File : Type :=
  | ListingFile (df : list FfiRow.t)
  | WcsFile (df : list WcsRow.t).

(** ** The world a call runs in *)

Record World := mkWorld {
  disk : gmap string File;              (* the files, by path *)
  tap_jobs : list Z;                    (* sectors queried at the archive, oldest first *)
  mast_cache : Lru.t Z (list Obs.t);    (* cache of [_mast_ffi_query] *)
  journal : list string                 (* [log.info] messages, oldest first *)
}.

Definition Py (A : Type) : Type := World → result A * World.

Global Instance Py_ret : MRet Py := λ A a w, (Return a, w).
Global Instance Py_bind : MBind Py := λ A B f m w,
  match m w with
  | (Return a, w') => f a w'
  | (Raise e, w') => (Raise e, w')
  end.

Definition lift {A} (r : result A) : Py A := λ w, (r, w).

Definition log_info (msg : string) : Py unit := λ w,
  (Return tt, mkWorld (disk w) (tap_jobs w) (mast_cache w) (journal w ++ [msg])).

Definition path_exists (path : string) : Py bool := λ w,
  (Return (bool_decide (is_Some (disk w !! path))), w).

(** [df.to_parquet(path)]: the file at [path] is created or replaced. *)
Definition write_file (path : string) (f : File) : Py unit := λ w,
  (Return tt, mkWorld (<[path := f]> (disk w)) (tap_jobs w) (mast_cache w) (journal w)).

(** [for x in l: body(x)] *)
Fixpoint for_each {A} (l : list A) (body : A → Py unit) : Py unit :=
  match l with
  | [] => mret tt
  | x :: l' => body x ≫= λ _, for_each l' body
  end.

(** ** The environment *)

Record Env := mkEnv {
  SECTORS : Z;                          (* the number of known sectors *)
  DATADIR : string;                     (* the data directory *)
  tap_service : Z → result (list Obs.t);      (* the TAP job of a sector's query *)
  mjd_iso : float → string;             (* [Time(x, format="mjd").iso] *)
  str_extract : string → string → option string; (* [Series.str.extract], one cell *)
  int_of_str : string → option Z;       (* [astype(int)], one cell *)
  list_images : Z → Z → Z → result (list TessImage.t); (* [imagelist.list_images] *)
  download_wcs : TessImage.t → result string; (* [.download_wcs().to_header_string(relax=True)] *)
  WCS : string → result Wcs.t           (* [astropy.wcs.WCS(header)] *)
}.

(** ** [catalog.py] *)

Section catalog.
Variable env : Env.

(** [_mast_ffi_query], under [lru_cache] (128 entries). *)
Definition _mast_ffi_query (sector : Z) : Py (list Obs.t) := λ w,
  match Lru.find sector (mast_cache w) with
  | Some tbl =>
      (Return tbl,
       mkWorld (disk w) (tap_jobs w) (Lru.touch sector tbl (mast_cache w)) (journal w))
  | None =>
      let msg := "Sending TAP query to MAST for sector " +:+ pretty sector +:+ "." in
      let w1 := mkWorld (disk w) (tap_jobs w ++ [sector]) (mast_cache w) (journal w ++ [msg]) in
      match tap_service env sector with
      | Raise e => (Raise e, w1)
      | Return tbl =>
          (Return tbl,
           mkWorld (disk w1) (tap_jobs w1) (Lru.store 128 sector tbl (mast_cache w1)) (journal w1))
      end
  end.

(** [Series.str.extract(pat).astype(int)] on one cell: a cell without a
    match is a missing value, which [astype(int)] refuses. *)
Definition extract_int (pat : string) (s : string) : result Z :=
  match str_extract env pat s ≫= int_of_str env with
  | Some z => Return z
  | None => Raise ValueError
  end.

Definition filename_le (a b : FfiRow.t) : Prop :=
  str_le (FfiRow.filename a) (FfiRow.filename b) = true.

Global Instance filename_le_dec a b : Decision (filename_le a b).
Proof. unfold filename_le. apply _. Defined.

(** [df.sort_values("filename")]: ascending; rows of equal file name stay
    in their order here, pandas leaves their order open. *)
Definition sort_values_filename (df : list FfiRow.t) : list FfiRow.t :=
  merge_sort filename_le df.

Definition _query_ffi_catalog (sector : Z) : Py (list FfiRow.t) :=
  tbl ← _mast_ffi_query sector;
  let filename := (λ o, last_segment (Obs.access_url o)) <$> tbl in
  sector_col ← lift (result_mapM (extract_int ".*-s(\d+)-.*") filename);
  camera ← lift (result_mapM (extract_int ".*-s\d+-(\d)-.*") filename);
  ccd ← lift (result_mapM (extract_int ".*-s\d+-\d-(\d)-.*") filename);
  let start := (λ o, str_slice_stop 19 (mjd_iso env (Obs.t_min o))) <$> tbl in
  let stop := (λ o, str_slice_stop 19 (mjd_iso env (Obs.t_max o))) <$> tbl in
  let df :=
    zip_with (λ '(f, s, c) '(d, a, b), FfiRow.mk f s c d a b)
      (zip (zip filename sector_col) camera) (zip (zip ccd start) stop) in
  mret (sort_values_filename df).

Definition _ffi_catalog_path (sector : Z) : string :=
  path_join (DATADIR env) ("tess-s" +:+ format_04d sector +:+ "-ffi-catalog.parquet").

Definition fetch_ffi_catalog (sector : Z) (path : option string)
  : Py (option (list FfiRow.t)) :=
  let path := default (_ffi_catalog_path sector) path in
  present ← path_exists path;
  if (present : bool) then
    log_info ("Skipping sector " +:+ pretty sector
              +:+ ": file already exists (" +:+ path +:+ ")");;
    mret None
  else
    log_info ("Writing " +:+ path);;
    df ← _query_ffi_catalog sector;
    write_file path (ListingFile df);;
    mret (Some df).

(** The body of the loop of [fetch_all_catalogs]. *)
Definition fetch_step (sector : Z) : Py unit :=
  log_info ("Fetching sector " +:+ pretty sector +:+ "/" +:+ pretty (SECTORS env));;
  fetch_ffi_catalog sector None ≫= λ _, mret tt.

Definition fetch_all_catalogs : Py unit :=
  for_each (seqZ 1 (SECTORS env)) fetch_step.
End catalog.

(** ** [wcs_catalog.py] *)

(** The argument of [time_to_sector]: a [str] or a [Time]. *)
Inductive time_arg : Type :=
  | StrArg (s : string)
  | TimeArg (t : Time.t).

Definition str_min (a b : string) : string := if str_le a b then a else b.
Definition str_max (a b : string) : string := if str_le a b then b else a.

(** [Series.min()] and [Series.max()] of a column of strings. *)
Definition series_min (l : list string) : option string :=
  match l with
  | [] => None
  | x :: l' => Some (foldl str_min x l')
  end.

Definition series_max (l : list string) : option string :=
  match l with
  | [] => None
  | x :: l' => Some (foldl str_max x l')
  end.

(** [db.groupby("sector")[col]]: the groups, by ascending key. *)
Definition group_keys (db : list WcsRow.t) : list Z :=
  merge_sort Z.le (remove_dups (WcsRow.sector <$> db)).

Definition groupby_sector (col : WcsRow.t → string) (db : list WcsRow.t)
  : list (Z * list string) :=
  (λ k, (k, col <$> filter (λ r, WcsRow.sector r = k) db)) <$> group_keys db.

(** The aggregate of every group, as a series indexed by the group key. *)
Definition aggregate (f : list string → option string) (g : list (Z * list string))
  : list (Z * string) :=
  omap (λ kv, pair kv.1 <$> f kv.2) g.

(** [left.to_frame().join(right)]: a left join on the index. *)
Definition join_on_index (left right : list (Z * string)) : list DateRow.t :=
  (λ kb, DateRow.mk kb.1 kb.2
           ((λ iv, iv.2.2) <$> list_find (λ kv, kv.1 = kb.1) right)) <$> left.

Section wcs_catalog.
Variable env : Env.

Definition WCS_CATALOG : string :=
  path_join (DATADIR env) "tess-wcs-catalog.parquet".

(** [itertools.product(sectors, [1, 2, 3, 4], [1, 2, 3, 4])] *)
Definition product (sectors : list Z) : list (Z * Z * Z) :=
  sector ← sectors; camera ← [1; 2; 3; 4]; ccd ← [1; 2; 3; 4];
  [(sector, camera, ccd)].

(** The body of the loop of [update_wcs_catalog]: the row of one triple. *)
Definition wcs_row (k : Z * Z * Z) : result WcsRow.t :=
  let '(sector, camera, ccd) := k in
  images ← list_images env sector camera ccd;
  mid ← py_index images (length images `div` 2)%nat;
  wcs ← download_wcs env mid;
  first ← py_first images;
  last ← py_last images;
  mret (WcsRow.mk sector camera ccd (TessImage.begin first) (TessImage.end_ last) wcs).

(** [for k in l: summary.append(body(k))] *)
Fixpoint for_append {A B} (l : list A) (body : A → Py B) (summary : list B)
  : Py (list B) :=
  match l with
  | [] => mret summary
  | x :: l' => body x ≫= λ data, for_append l' body (summary ++ [data])
  end.

(** [tqdm] reports progress and hands on the triples of the iterator in
    their order; the loop runs over the iterator. *)
Definition update_wcs_catalog (sectors : option (list Z)) : Py unit :=
  let sectors := default (seqZ 1 (SECTORS env)) sectors in
  log_info ("Writing " +:+ WCS_CATALOG);;
  summary ← for_append (product sectors) (λ k, lift (wcs_row k)) [];
  write_file WCS_CATALOG (WcsFile summary).

(** The functions below read the frame [load_wcs_catalog()] returns; it is
    their argument [df]. They are the bodies of the functions; the
    [lru_cache] around a body is [Lru.memo], which hands on what the body
    returns ([memo_result] below). *)

(** [df.query(f"sector == {sector} & camera == {camera} & ccd == {ccd}")] *)
Definition query (df : list WcsRow.t) (sector camera ccd : Z) : list WcsRow.t :=
  filter (λ r, WcsRow.sector r = sector ∧ WcsRow.camera r = camera
               ∧ WcsRow.ccd r = ccd) df.

Definition get_wcs (df : list WcsRow.t) (sector camera ccd : Z) : result Wcs.t :=
  row ← py_first (query df sector camera ccd);
  WCS env (WcsRow.wcs row).
End wcs_catalog.

Definition get_sector_dates (db : list WcsRow.t) : list DateRow.t :=
  let begin := aggregate series_min (groupby_sector WcsRow.begin db) in
  let end_ := aggregate series_max (groupby_sector WcsRow.end_ db) in
  join_on_index begin end_.

(** [(time >= row.begin) & (time <= row.end)]: both comparisons are
    evaluated; a missing [end] cannot be compared with a [str]. *)
Definition in_interval (time : string) (row : DateRow.t) : result bool :=
  let lower := str_ge time (DateRow.begin row) in
  match DateRow.end_ row with
  | None => Raise TypeError
  | Some e => Return (lower && str_le time e)
  end.

(** [for row in dates.itertuples(): ...; return None] *)
Fixpoint scan_dates (dates : list DateRow.t) (time : string) : result (option Z) :=
  match dates with
  | [] => Return None
  | row :: rest =>
      match in_interval time row with
      | Raise e => Raise e
      | Return true => Return (Some (DateRow.Index row))
      | Return false => scan_dates rest time
      end
  end.

(** [if isinstance(time, Time): time = time.iso] *)
Definition as_str (time : time_arg) : string :=
  match time with
  | TimeArg t => Time.iso t
  | StrArg s => s
  end.

(** [dates] is the frame [get_sector_dates()] returns. *)
Definition time_to_sector (dates : list DateRow.t) (time : time_arg) : result (option Z) :=
  let time := as_str time in
  scan_dates dates time.

(** [get_wcs] and [time_to_sector] as they are called: under their caches of
    4096 and 128 entries. *)
Definition get_wcs_cached (env : Env) (df : list WcsRow.t) (key : Z * Z * Z)
  : Lru.t (Z * Z * Z) Wcs.t → result Wcs.t * Lru.t (Z * Z * Z) Wcs.t :=
  Lru.memo 4096 (λ k, get_wcs env df k.1.1 k.1.2 k.2) key.

Global Instance Time_eq_dec : EqDecision Time.t.
Proof. solve_decision. Defined.

Global Instance time_arg_eq_dec : EqDecision time_arg.
Proof. solve_decision. Defined.

Definition time_to_sector_cached (dates : list DateRow.t) (time : time_arg)
  : Lru.t time_arg (option Z) → result (option Z) * Lru.t time_arg (option Z) :=
  Lru.memo 128 (time_to_sector dates) time.

(** ** Sample data *)

Module Sample.
(** The sector-date index of the specification's example. *)
Definition dates : list DateRow.t :=
  [ DateRow.mk 1 "2018-07-25 00:00:00" (Some "2018-08-22 00:00:00");
    DateRow.mk 2 "2018-08-22 00:00:01" (Some "2018-09-20 00:00:00") ].

Definition image (name begin end_ : string) : TessImage.t :=
  TessImage.mk name begin end_.

(** Three images per triple; the listing of a triple does not depend on
    camera and ccd here. *)
Definition images_of (sector : Z) : list TessImage.t :=
  if decide (sector = 1) then
    [ image "a1" "2018-07-25 00:00:00" "2018-07-25 00:30:00";
      image "a2" "2018-08-08 00:00:00" "2018-08-08 00:30:00";
      image "a3" "2018-08-21 23:30:00" "2018-08-22 00:00:00" ]
  else
    [ image "b1" "2018-08-22 00:00:01" "2018-08-22 00:30:00";
      image "b2" "2018-09-05 00:00:00" "2018-09-05 00:30:00";
      image "b3" "2018-09-19 23:30:00" "2018-09-20 00:00:00" ].

Definition obs (sector : Z) : list Obs.t :=
  [ Obs.mk ("https://archive/ffi/tess2018206192942-s" +:+ format_04d sector
            +:+ "-1-2-0120-s_ffic.fits") 58324.5 58324.75;
    Obs.mk ("https://archive/ffi/tess2018206192942-s" +:+ format_04d sector
            +:+ "-1-1-0120-s_ffic.fits") 58324 58324.25 ].

(** Stand-ins for the pattern matching and the conversion to [int], good
    for file names of the shape [tess<stamp>-s<sector>-<camera>-<ccd>-...]. *)
Fixpoint fields_go (cur s : string) : list string :=
  match s with
  | EmptyString => [String.rev cur]
  | String c s' =>
      if Ascii.eqb c "-" then String.rev cur :: fields_go "" s'
      else fields_go (String c cur) s'
  end.

Definition extract (pat s : string) : option string :=
  let fields := fields_go "" s in
  if decide (pat = ".*-s(\d+)-.*") then
    match fields !! 1%nat with
    | Some (String "s" digits) => Some digits
    | _ => None
    end
  else if decide (pat = ".*-s\d+-(\d)-.*") then fields !! 2%nat
  else fields !! 3%nat.

Fixpoint nat_of_digits (acc : nat) (s : string) : option nat :=
  match s with
  | EmptyString => Some acc
  | String c s' => d ← Ascii.is_nat c; nat_of_digits (10 * acc + d) s'
  end.

Definition to_int (s : string) : option Z :=
  if decide (s = "") then None else Z.of_nat <$> nat_of_digits 0 s.

(** An environment in which every external call succeeds. *)
Definition env : Env := {|
  SECTORS := 2;
  DATADIR := "data";
  tap_service := λ sector, Return (obs sector);
  mjd_iso := λ _, "2018-07-25 00:00:00.000";
  str_extract := extract;
  int_of_str := to_int;
  list_images := λ sector _ _, Return (images_of sector);
  download_wcs := λ img, Return ("WCSAXES = 2 / " +:+ TessImage.filename img);
  WCS := λ header, Return (Wcs.mk header)
|}.

(** The same, but the archive fails on the sector [down]. *)
Definition env_down (down : Z) : Env := {|
  SECTORS := 2;
  DATADIR := "data";
  tap_service := λ sector,
    if decide (sector = down) then Raise (UpstreamError "timeout") else Return (obs sector);
  mjd_iso := mjd_iso env;
  str_extract := str_extract env;
  int_of_str := int_of_str env;
  list_images := list_images env;
  download_wcs := download_wcs env;
  WCS := WCS env
|}.

(** A process that has done nothing yet, on an empty disk. *)
Definition fresh : World := mkWorld ∅ [] [] [].

(** A disk that already holds the listing of sector 1 and an old WCS
    catalog with a row of sector 7. *)
Definition listing1 : list FfiRow.t :=
  [ FfiRow.mk "tess2018206192942-s0001-1-1-0120-s_ffic.fits" 1 1 1
      "2018-07-25 00:00:00" "2018-07-25 00:30:00" ].

Definition old_catalog : list WcsRow.t :=
  [ WcsRow.mk 7 1 1 "2019-01-08 00:00:00" "2019-02-01 00:00:00" "WCSAXES = 2 / old" ].

Definition used : World :=
  mkWorld (<[_ffi_catalog_path env 1 := ListingFile listing1]>
             (<[WCS_CATALOG env := WcsFile old_catalog]> ∅)) [] [] [].
End Sample.

(** ** Notions used in the statements *)

(** Every entry of the cache [c] is a value [f] returned. *)
Definition coherent {K V} (f : K → result V) (c : Lru.t K V) : Prop :=
  ∀ k v, (k, v) ∈ c → f k = Return v.

(** [m] sends TAP jobs for sectors of [S] only. *)
Definition jobs_within {A} (S : list Z) (m : Py A) : Prop :=
  ∀ w r w', m w = (r, w') → ∀ j, j ∈ tap_jobs w' → j ∈ tap_jobs w ∨ j ∈ S.

(** The order of the keys: sector, then camera, then ccd. *)
Definition key_lt (a b : Z * Z * Z) : Prop :=
  a.1.1 < b.1.1
  ∨ (a.1.1 = b.1.1 ∧ (a.1.2 < b.1.2 ∨ (a.1.2 = b.1.2 ∧ a.2 < b.2))).

Global Instance key_lt_dec a b : Decision (key_lt a b).
Proof. unfold key_lt. apply _. Defined.

(** The sixteen keys of one sector. *)
Definition sector_keys (s : Z) : list (Z * Z * Z) :=
  [ (s, 1, 1); (s, 1, 2); (s, 1, 3); (s, 1, 4);
    (s, 2, 1); (s, 2, 2); (s, 2, 3); (s, 2, 4);
    (s, 3, 1); (s, 3, 2); (s, 3, 3); (s, 3, 4);
    (s, 4, 1); (s, 4, 2); (s, 4, 3); (s, 4, 4) ].


(** What [update_wcs_catalog] needs from its collaborators for the key [k]:
    a listing that is not empty and the header of its middle image. *)
Definition upstream_ok (env : Env) (k : Z * Z * Z) : Prop :=
  ∃ images mid wcs,
    list_images env k.1.1 k.1.2 k.2 = Return images
    ∧ images ≠ []
    ∧ images !! (length images `div` 2)%nat = Some mid
    ∧ download_wcs env mid = Return wcs.

(** The row [r] is the one the loop assembles for the key [k]: bounds from
    the first and the last image of the listing, header from the middle. *)
Definition row_of_listing (env : Env) (k : Z * Z * Z) (r : WcsRow.t) : Prop :=
  ∃ images first last mid,
    list_images env k.1.1 k.1.2 k.2 = Return images
    ∧ images !! 0%nat = Some first
    ∧ images !! (length images - 1)%nat = Some last
    ∧ images !! (length images `div` 2)%nat = Some mid
    ∧ WcsRow.key r = k
    ∧ WcsRow.begin r = TessImage.begin first
    ∧ WcsRow.end_ r = TessImage.end_ last
    ∧ download_wcs env mid = Return (WcsRow.wcs r).

(** The interval of [row] contains [time], both ends included. *)
Definition covers (time : string) (row : DateRow.t) : Prop :=
  str_le (DateRow.begin row) time = true
  ∧ ∃ e, DateRow.end_ row = Some e ∧ str_le time e = true.

(** [m] is a least (greatest) element of the column [l]. *)
Definition is_min (m : string) (l : list string) : Prop :=
  m ∈ l ∧ ∀ x, x ∈ l → str_le m x = true.
Definition is_max (m : string) (l : list string) : Prop :=
  m ∈ l ∧ ∀ x, x ∈ l → str_le x m = true.

(** The rows of sector [s]. *)
Definition sector_rows (s : Z) (db : list WcsRow.t) : list WcsRow.t :=
  filter (λ r, WcsRow.sector r = s) db.

(** The form of the timestamps of the index: [YYYY-MM-DD HH:MM:SS], a digit
    at every [None] of the pattern and the given separator elsewhere. *)
Definition is_digit (c : ascii) : bool :=
  (Ascii.leb "0" c && Ascii.leb c "9")%char.

Fixpoint matches_form (pat : list (option ascii)) (s : string) : bool :=
  match pat, s with
  | [], EmptyString => true
  | None :: pat', String c s' => is_digit c && matches_form pat' s'
  | Some sep :: pat', String c s' => Ascii.eqb c sep && matches_form pat' s'
  | _, _ => false
  end.

Definition seconds_pattern : list (option ascii) :=
  [ None; None; None; None; Some "-"; None; None; Some "-"; None; None; Some " ";
    None; None; Some ":"; None; None; Some ":"; None; None ]%char.

Definition seconds_form (s : string) : bool := matches_form seconds_pattern s.

(** The digits of a timestamp read as one decimal number: for
    [2018-08-22 00:00:01] it is 20180822000001. On timestamps of one form it
    orders them in time. *)
Definition digit_val (c : ascii) : Z := Z.of_N (N_of_ascii c) - 48.

Fixpoint digit_count (s : string) : nat :=
  match s with
  | EmptyString => 0%nat
  | String c s' => if is_digit c then S (digit_count s') else digit_count s'
  end.

Fixpoint stamp_value (s : string) : Z :=
  match s with
  | EmptyString => 0
  | String c s' =>
      if is_digit c
      then digit_val c * 10 ^ Z.of_nat (digit_count s') + stamp_value s'
      else stamp_value s'
  end.

(** ** The loaders *)

(** [pd.read_parquet(path)]: the frame the file holds. For a missing file
    pandas raises its [FileNotFoundError], an error of the library. *)
Definition read_parquet (path : string) : Py File := λ w,
  match disk w !! path with
  | Some f => (Return f, w)
  | None => (Raise (UpstreamError "FileNotFoundError"), w)
  end.

(** A call of a function with effects under [lru_cache(maxsize)]: the cache
    is threaded beside the world. A hit runs nothing; a call that raises
    stores nothing. *)
Definition memo_py {K V} `{EqDecision K} (maxsize : nat) (f : K → Py V) (k : K)
    (c : Lru.t K V) (w : World) : result V * Lru.t K V * World :=
  match Lru.find k c with
  | Some v => (Return v, Lru.touch k v c, w)
  | None =>
      match f k w with
      | (Return v, w') => (Return v, Lru.store maxsize k v c, w')
      | (Raise e, w') => (Raise e, c, w')
      end
  end.

(** [load_ffi_catalog], under [lru_cache] (128 entries). *)
Definition load_ffi_catalog (env : Env) (sector : Z)
  : Lru.t Z File → World → result File * Lru.t Z File * World :=
  memo_py 128 (λ sector,
    let path := _ffi_catalog_path env sector in
    log_info ("Reading " +:+ path);;
    read_parquet path) sector.

(** [load_wcs_catalog], under [lru_cache]: a function of no argument, its
    one cache entry is keyed by [()]. *)
Definition load_wcs_catalog (env : Env)
  : Lru.t unit File → World → result File * Lru.t unit File * World :=
  memo_py 128 (λ _,
    log_info ("Reading " +:+ WCS_CATALOG env);;
    read_parquet (WCS_CATALOG env)) tt.

(** ** Notions used in the further statements *)

(** A cache within its bound, with one entry per key at most. *)
Definition lru_ok {K V} (maxsize : nat) (c : Lru.t K V) : Prop :=
  (length c ≤ maxsize)%nat ∧ NoDup c.*1.

(** No character of [s] is a slash. *)
Definition no_slash (s : string) : Prop :=
  "/"%char ∉ list_ascii_of_string s.

(** [m] leaves every file as it is. *)
Definition keeps_disk {A} (m : Py A) : Prop :=
  ∀ w r w', m w = (r, w') → disk w' = disk w.

(** [m] leaves every file that exists as it is; it may create files. *)
Definition keeps_files {A} (m : Py A) : Prop :=
  ∀ w r w', m w = (r, w') → ∀ path f, disk w !! path = Some f → disk w' !! path = Some f.

(** The world after [log.info(msg)]. *)
Definition logged (msg : string) (w : World) : World :=
  mkWorld (disk w) (tap_jobs w) (mast_cache w) (journal w ++ [msg]).

(** [s] without its leading zeros, of which the last one stays when [s] is
    made of zeros only: the inverse of the padding on decimal notations. *)
Fixpoint strip_zeros (s : string) : string :=
  match s with
  | EmptyString => s
  | String a rest =>
      match rest with
      | EmptyString => s
      | String _ _ => if Ascii.eqb a "0" then strip_zeros rest else s
      end
  end.

(** The listing row [r] is the row of the archive record [o]: the file name
    is the last segment of the URL, the three numbers are what the patterns
    extract from it, the timestamps are the ISO renderings of the two dates
    cut to 19 characters. *)
Definition row_of_obs (env : Env) (o : Obs.t) (r : FfiRow.t) : Prop :=
  FfiRow.filename r = last_segment (Obs.access_url o)
  ∧ extract_int env ".*-s(\d+)-.*" (FfiRow.filename r) = Return (FfiRow.sector r)
  ∧ extract_int env ".*-s\d+-(\d)-.*" (FfiRow.filename r) = Return (FfiRow.camera r)
  ∧ extract_int env ".*-s\d+-\d-(\d)-.*" (FfiRow.filename r) = Return (FfiRow.ccd r)
  ∧ FfiRow.start r = str_slice_stop 19 (mjd_iso env (Obs.t_min o))
  ∧ FfiRow.stop r = str_slice_stop 19 (mjd_iso env (Obs.t_max o)).

(** The value a call returned, [d] if it raised. *)
Definition returned {A} (d : A) (r : result A) : A :=
  match r with
  | Return a => a
  | Raise _ => d
  end.

(** ** Further sample data *)

Module Sample2.
(** The archive lists a file whose name does not follow the pattern. *)
Definition env_odd_name : Env := {|
  SECTORS := 2;
  DATADIR := "data";
  tap_service := λ sector,
    Return (Sample.obs sector ++ [Obs.mk "https://archive/ffi/readme.txt" 58324 58324.25]);
  mjd_iso := mjd_iso Sample.env;
  str_extract := str_extract Sample.env;
  int_of_str := int_of_str Sample.env;
  list_images := list_images Sample.env;
  download_wcs := download_wcs Sample.env;
  WCS := WCS Sample.env
|}.

(** Sector 2 has no image for camera 3, ccd 4. *)
Definition env_gap : Env := {|
  SECTORS := 2;
  DATADIR := "data";
  tap_service := tap_service Sample.env;
  mjd_iso := mjd_iso Sample.env;
  str_extract := str_extract Sample.env;
  int_of_str := int_of_str Sample.env;
  list_images := λ sector camera ccd,
    if decide (sector = 2 ∧ camera = 3 ∧ ccd = 4) then Return []
    else list_images Sample.env sector camera ccd;
  download_wcs := download_wcs Sample.env;
  WCS := WCS Sample.env
|}.

(** The catalog a build over the sectors 1 and 2 writes in [Sample.env]. *)
Definition catalog12 : list WcsRow.t :=
  returned [] (result_mapM (wcs_row Sample.env) (product [1; 2])).
End Sample2.

(** Why the loop of [update_wcs_catalog] raises [e] at the key [k]: the
    listing raises, the listing is empty, or the download of the middle
    image raises. *)
Definition row_fails (env : Env) (k : Z * Z * Z) (e : exn) : Prop :=
  list_images env k.1.1 k.1.2 k.2 = Raise e
  ∨ (list_images env k.1.1 k.1.2 k.2 = Return [] ∧ e = IndexError)
  ∨ ∃ images mid,
      list_images env k.1.1 k.1.2 k.2 = Return images
      ∧ images !! (length images `div` 2)%nat = Some mid
      ∧ download_wcs env mid = Raise e.

(** The coverage of sector [s] in the catalog [db], from the least begin to
    the greatest end of its rows, contains [time]. *)
Definition sector_covers (db : list WcsRow.t) (s : Z) (time : string) : Prop :=
  ∃ b e,
    is_min b (WcsRow.begin <$> sector_rows s db)
    ∧ is_max e (WcsRow.end_ <$> sector_rows s db)
    ∧ str_le b time = true ∧ str_le time e = true.

(** * Properties *)

(** ** The order of strings *)

Lemma string_compare_refl (s : string) : String.compare s s = Eq.
Proof.
  induction s as [|c s IH]; simpl; [done|].
  unfold Ascii.compare. by rewrite N.compare_refl.
Qed.

Lemma str_le_refl (s : string) : str_le s s = true.
Proof. unfold str_le, String.leb. by rewrite string_compare_refl. Qed.

Lemma str_le_total (a b : string) : str_le a b = true ∨ str_le b a = true.
Proof. apply String.leb_total. Qed.

Lemma str_le_trans (a b c : string) :
  str_le a b = true → str_le b c = true → str_le a c = true.
Proof.
  unfold str_le, String.leb. revert b c.
  induction a as [|x a IH]; intros [|y b] [|z c]; simpl; try done.
  unfold Ascii.compare.
  destruct (N.compare_spec (N_of_ascii x) (N_of_ascii y)) as [Hxy|Hxy|Hxy];
    destruct (N.compare_spec (N_of_ascii y) (N_of_ascii z)) as [Hyz|Hyz|Hyz];
    destruct (N.compare_spec (N_of_ascii x) (N_of_ascii z)) as [Hxz|Hxz|Hxz];
    try done; try lia.
  apply IH.
Qed.

Global Instance filename_le_total : Total filename_le.
Proof. intros a b. apply str_le_total. Qed.

Global Instance filename_le_trans : Transitive filename_le.
Proof. intros a b c. apply str_le_trans. Qed.

(** ** Loops *)

Lemma Py_bind_Raise {A B} (f : A → Py B) (m : Py A) w e w' :
  m w = (Raise e, w') → (m ≫= f) w = (Raise e, w').
Proof. unfold mbind, Py_bind. by intros ->. Qed.

(** A loop over [l1 ++ x :: l2] whose body raises at [x] stops there. *)
Lemma for_each_raise {A} (body : A → Py unit) l1 x l2 w w1 e w2 :
  for_each l1 body w = (Return tt, w1) →
  body x w1 = (Raise e, w2) →
  for_each (l1 ++ x :: l2) body w = (Raise e, w2).
Proof.
  revert w. induction l1 as [|y l1 IH]; intros w Hl1 Hx; simpl in *.
  - injection Hl1 as <-. by erewrite Py_bind_Raise.
  - unfold mbind, Py_bind in *. destruct (body y w) as [[[]|e'] wy]; [|done].
    by apply IH.
Qed.

(** ** The cache *)

(** A cached call returns what the body returns, and keeps the cache made
    of values the body returned. *)
Lemma memo_result {K V} `{EqDecision K} (maxsize : nat) (f : K → result V) k c :
  coherent f c →
  (Lru.memo maxsize f k c).1 = f k ∧ coherent f (Lru.memo maxsize f k c).2.
Proof.
  intros Hc. unfold Lru.memo, Lru.find.
  assert (∀ v, coherent f ((k, v) :: Lru.remove k c) ↔ f k = Return v) as Hfront.
  { intros v. split.
    - intros H. apply H. by left.
    - intros Hv k' v' [[= -> ->]|[_ Hin]%list_elem_of_filter]%elem_of_cons; [done|].
      by apply Hc. }
  destruct (list_find _ c) as [[i [k' v]]|] eqn:Hfind; simpl.
  - apply list_find_Some in Hfind as (Hlook%list_elem_of_lookup_2 & Hk & _).
    simpl in Hk. subst k'. pose proof (Hc _ _ Hlook) as Hv.
    split; [done|]. by apply Hfront.
  - destruct (f k) as [v|e] eqn:Hv; simpl; [|done].
    split; [done|]. intros k' v' Hin%subseteq_take. revert k' v' Hin.
    by apply Hfront.
Qed.

Lemma get_wcs_cached_result env df key c :
  coherent (λ k, get_wcs env df k.1.1 k.1.2 k.2) c →
  (get_wcs_cached env df key c).1 = get_wcs env df key.1.1 key.1.2 key.2.
Proof.
  intros Hc. unfold get_wcs_cached.
  by destruct (memo_result 4096 (λ k, get_wcs env df k.1.1 k.1.2 k.2) key c Hc).
Qed.

Lemma time_to_sector_cached_result dates time c :
  coherent (time_to_sector dates) c →
  (time_to_sector_cached dates time c).1 = time_to_sector dates time.
Proof.
  intros Hc. unfold time_to_sector_cached.
  by destruct (memo_result 128 (time_to_sector dates) time c Hc).
Qed.

(** ** Which sectors a computation queries at the archive *)

Lemma jobs_within_ret {A} S (a : A) : jobs_within S (mret a).
Proof. intros w r w' [= <- <-] j Hj. by left. Qed.

Lemma jobs_within_lift {A} S (r : result A) : jobs_within S (lift r).
Proof. intros w r' w' [= <- <-] j Hj. by left. Qed.

Lemma jobs_within_log S msg : jobs_within S (log_info msg).
Proof. intros w r w' [= <- <-] j Hj. by left. Qed.

Lemma jobs_within_exists S path : jobs_within S (path_exists path).
Proof. intros w r w' [= <- <-] j Hj. by left. Qed.

Lemma jobs_within_write S path f : jobs_within S (write_file path f).
Proof. intros w r w' [= <- <-] j Hj. by left. Qed.

Lemma jobs_within_bind {A B} S (m : Py A) (f : A → Py B) :
  jobs_within S m → (∀ a, jobs_within S (f a)) → jobs_within S (m ≫= f).
Proof.
  intros Hm Hf w r w' Hrun j Hj. unfold mbind, Py_bind in Hrun.
  destruct (m w) as [[a|e] w1] eqn:Hmw.
  - destruct (Hf a _ _ _ Hrun j Hj) as [Hin|Hin]; [|by right].
    by apply (Hm _ _ _ Hmw).
  - injection Hrun as <- <-. by apply (Hm _ _ _ Hmw).
Qed.

Lemma jobs_within_weaken {A} S S' (m : Py A) :
  S ⊆ S' → jobs_within S m → jobs_within S' m.
Proof.
  intros Hsub Hm w r w' Hrun j Hj.
  destruct (Hm _ _ _ Hrun j Hj); [by left|right; by apply Hsub].
Qed.

Create HintDb jobs.
#[local] Hint Resolve jobs_within_ret jobs_within_lift jobs_within_log
  jobs_within_exists jobs_within_write : jobs.

Lemma jobs_within_mast env sector : jobs_within [sector] (_mast_ffi_query env sector).
Proof.
  intros w r w' Hrun j Hj. unfold _mast_ffi_query in Hrun.
  destruct (Lru.find sector (mast_cache w)).
  - injection Hrun as <- <-. by left.
  - assert (j ∈ (tap_jobs w ++ [sector])%list) as Hin.
    { destruct (tap_service env sector); injection Hrun as <- <-; exact Hj. }
    apply elem_of_app in Hin as [?|?]; [by left|by right].
Qed.

Lemma jobs_within_query env sector : jobs_within [sector] (_query_ffi_catalog env sector).
Proof.
  unfold _query_ffi_catalog.
  apply jobs_within_bind; [apply jobs_within_mast|intros tbl].
  repeat (apply jobs_within_bind; [auto with jobs|intros ?]).
  auto with jobs.
Qed.

Lemma jobs_within_fetch env sector path :
  jobs_within [sector] (fetch_ffi_catalog env sector path).
Proof.
  unfold fetch_ffi_catalog.
  apply jobs_within_bind; [auto with jobs|intros [|]].
  - apply jobs_within_bind; auto with jobs.
  - apply jobs_within_bind; [auto with jobs|intros _].
    apply jobs_within_bind; [apply jobs_within_query|intros df].
    apply jobs_within_bind; auto with jobs.
Qed.

Lemma jobs_within_fetch_step env sector : jobs_within [sector] (fetch_step env sector).
Proof.
  unfold fetch_step.
  apply jobs_within_bind; [auto with jobs|intros _].
  apply jobs_within_bind; [apply jobs_within_fetch|auto with jobs].
Qed.

Lemma jobs_within_for_each {A} (key : A → Z) (body : A → Py unit) l :
  (∀ x, jobs_within [key x] (body x)) → jobs_within (key <$> l) (for_each l body).
Proof.
  intros Hbody. induction l as [|x l IH]; simpl; [auto with jobs|].
  apply jobs_within_bind.
  - eapply jobs_within_weaken; [|apply Hbody].
    intros j ->%list_elem_of_singleton. by left.
  - intros _. eapply jobs_within_weaken; [|apply IH].
    intros j Hj. by right.
Qed.

(** ** The listing catalog *)

(** C8: a fetch whose target file exists returns [None]; it leaves the disk,
    and with it the existing file, as it was, sends no job to the archive
    and only logs that it skipped the sector. *)
Theorem fetch_ffi_catalog_skips_existing env sector path w :
  is_Some (disk w !! default (_ffi_catalog_path env sector) path) →
  ∃ w', fetch_ffi_catalog env sector path w = (Return None, w')
        ∧ disk w' = disk w
        ∧ tap_jobs w' = tap_jobs w
        ∧ mast_cache w' = mast_cache w
        ∧ journal w' =
            (journal w ++ ["Skipping sector " +:+ pretty sector
                           +:+ ": file already exists ("
                           +:+ default (_ffi_catalog_path env sector) path +:+ ")"])%list.
Proof.
  intros Hfile. eexists. split.
  - unfold fetch_ffi_catalog, path_exists, mbind, Py_bind.
    rewrite bool_decide_eq_true_2 by done. reflexivity.
  - done.
Qed.

Lemma fetch_ffi_catalog_skips_existing_witness :
  ∃ w', fetch_ffi_catalog Sample.env 1 None Sample.used = (Return None, w')
        ∧ disk w' = disk Sample.used
        ∧ tap_jobs w' = tap_jobs Sample.used
        ∧ mast_cache w' = mast_cache Sample.used
        ∧ journal w' =
            (journal Sample.used
             ++ ["Skipping sector 1: file already exists (data/tess-s0001-ffi-catalog.parquet)"])%list.
Proof.
  apply (fetch_ffi_catalog_skips_existing Sample.env 1 None Sample.used).
  exists (ListingFile Sample.listing1). apply lookup_insert_eq.
Defined.

(** C3, as the code has it: [fetch_all_catalogs] fetches the sectors in
    ascending order and stops at the first sector whose fetch raises. The
    exception reaches the caller, the world is left as the failing fetch
    left it, and no job for a later sector is sent to the archive. *)
Theorem fetch_all_catalogs_stops_at_failure env w k e w1 w2 :
  1 ≤ k ≤ SECTORS env →
  for_each (seqZ 1 (k - 1)) (fetch_step env) w = (Return tt, w1) →
  fetch_step env k w1 = (Raise e, w2) →
  fetch_all_catalogs env w = (Raise e, w2)
  ∧ ∀ j, k < j → j ∈ tap_jobs w2 → j ∈ tap_jobs w.
Proof.
  intros Hk Hbefore Hfail.
  assert (seqZ 1 (SECTORS env)
          = (seqZ 1 (k - 1) ++ k :: seqZ (k + 1) (SECTORS env - k))%list) as Hsplit.
  { replace (SECTORS env) with ((k - 1) + (1 + (SECTORS env - k))) at 1 by lia.
    rewrite seqZ_app by lia. f_equal.
    rewrite seqZ_cons by lia. f_equal; [lia|f_equal; lia]. }
  split.
  - unfold fetch_all_catalogs. rewrite Hsplit.
    by apply for_each_raise with w1.
  - intros j Hj Hin.
    destruct (jobs_within_fetch_step env k _ _ _ Hfail j Hin) as [Hin1|Hin1].
    + destruct (jobs_within_for_each id (fetch_step env) (seqZ 1 (k - 1))
                  (jobs_within_fetch_step env) _ _ _ Hbefore j Hin1) as [?|Hin2]; [done|].
      rewrite list_fmap_id in Hin2. apply elem_of_seqZ in Hin2. lia.
    + apply list_elem_of_singleton in Hin1. lia.
Qed.

Lemma fetch_all_catalogs_stops_at_failure_witness :
  ∃ w2,
    (fetch_all_catalogs (Sample.env_down 2) Sample.fresh
     = (Raise (UpstreamError "timeout"), w2)
     ∧ ∀ j, 2 < j → j ∈ tap_jobs w2 → j ∈ tap_jobs Sample.fresh)
    ∧ tap_jobs w2 = [1; 2]
    ∧ is_Some (disk w2 !! _ffi_catalog_path (Sample.env_down 2) 1)
    ∧ disk w2 !! _ffi_catalog_path (Sample.env_down 2) 2 = None.
Proof.
  eexists. split.
  - apply (fetch_all_catalogs_stops_at_failure (Sample.env_down 2) Sample.fresh 2
             (UpstreamError "timeout")
             (for_each [1] (fetch_step (Sample.env_down 2)) Sample.fresh).2).
    + simpl. lia.
    + vm_compute. reflexivity.
    + vm_compute. reflexivity.
  - split_and!; [reflexivity|by eexists|reflexivity].
Defined.

(** C3, as the specification has it, fails: with the archive down for
    sector 1 only, [fetch_all_catalogs] raises and sector 2 is never
    attempted, although a fetch of sector 2 on its own succeeds. *)
Lemma fetch_all_catalogs_skips_later_sectors :
  ∃ e w',
    fetch_all_catalogs (Sample.env_down 1) Sample.fresh = (Raise e, w')
    ∧ ("Fetching sector 2/2" ∉ journal w')
    ∧ (2 ∉ tap_jobs w')
    ∧ disk w' !! _ffi_catalog_path (Sample.env_down 1) 2 = None
    ∧ ∃ df w'', fetch_ffi_catalog (Sample.env_down 1) 2 None w' = (Return (Some df), w'').
Proof.
  eexists _, _. split; [reflexivity|]. simpl.
  split; [|split; [|split]].
  - intros Hin. repeat (apply elem_of_cons in Hin as [Heq|Hin]; [discriminate Heq|]).
    by apply elem_of_nil in Hin.
  - intros Hin. apply list_elem_of_singleton in Hin. lia.
  - apply lookup_empty.
  - eexists _, _. vm_compute. reflexivity.
Qed.

(** ** The WCS catalog build *)

Lemma product_cons s l : product (s :: l) = sector_keys s ++ product l.
Proof. reflexivity. Qed.

Lemma product_length l : length (product l) = (length l * 4 * 4)%nat.
Proof.
  induction l as [|s l IH]; [done|].
  rewrite product_cons, length_app, IH. simpl. lia.
Qed.

Lemma elem_of_sector_keys s k :
  k ∈ sector_keys s ↔ k.1.1 = s ∧ 1 ≤ k.1.2 ≤ 4 ∧ 1 ≤ k.2 ≤ 4.
Proof.
  destruct k as [[s' c] d]. unfold sector_keys. simpl. split.
  - intros Hin.
    repeat (apply elem_of_cons in Hin as [Heq|Hin]; [injection Heq as -> -> ->; lia|]).
    by apply elem_of_nil in Hin.
  - intros (-> & Hc & Hd).
    assert (c = 1 ∨ c = 2 ∨ c = 3 ∨ c = 4) as Hc' by lia.
    assert (d = 1 ∨ d = 2 ∨ d = 3 ∨ d = 4) as Hd' by lia.
    destruct Hc' as [-> | [-> | [-> | ->]]], Hd' as [-> | [-> | [-> | ->]]];
      repeat first [apply list_elem_of_here | apply list_elem_of_further].
Qed.

Lemma elem_of_product k l :
  k ∈ product l ↔ k.1.1 ∈ l ∧ 1 ≤ k.1.2 ≤ 4 ∧ 1 ≤ k.2 ≤ 4.
Proof.
  induction l as [|s l IH].
  - split; [by intros ?%elem_of_nil|by intros [?%elem_of_nil _]].
  - rewrite product_cons, elem_of_app, elem_of_sector_keys, IH, elem_of_cons.
    tauto.
Qed.

Lemma NoDup_sector_keys s : NoDup (sector_keys s).
Proof.
  apply (NoDup_fmap_1 (λ k : Z * Z * Z, (k.1.2, k.2))). simpl.
  apply (bool_decide_unpack _). by vm_compute.
Qed.

Lemma NoDup_product l : NoDup l → NoDup (product l).
Proof.
  induction 1 as [|s l Hs Hl IH]; [constructor|].
  rewrite product_cons. apply NoDup_app. split_and!; [apply NoDup_sector_keys| |done].
  intros k Hk Hk'. apply elem_of_sector_keys in Hk as [<- _].
  by apply elem_of_product in Hk' as [? _].
Qed.

Lemma StronglySorted_sector_keys s : StronglySorted key_lt (sector_keys s).
Proof.
  unfold sector_keys.
  repeat (constructor; [|repeat (constructor; [unfold key_lt; simpl; lia|]); constructor]).
  constructor.
Qed.

Lemma StronglySorted_product l :
  StronglySorted Z.lt l → StronglySorted key_lt (product l).
Proof.
  induction 1 as [|s l Hl IH Hs]; [constructor|].
  rewrite product_cons.
  apply StronglySorted_app_2; [|apply StronglySorted_sector_keys|done].
  intros a b Ha Hb. apply elem_of_sector_keys in Ha as [Ha _].
  apply elem_of_product in Hb as [Hb _].
  left. rewrite Ha. by eapply Forall_forall in Hs.
Qed.

Lemma StronglySorted_seqZ m n : StronglySorted Z.lt (seqZ m n).
Proof.
  destruct (decide (0 ≤ n)) as [Hn|Hn]; [|rewrite seqZ_nil by lia; constructor].
  revert m. pattern n. apply natlike_ind; [|intros k Hk IH|done]; intros m.
  - constructor.
  - rewrite seqZ_cons by lia. replace (Z.pred (Z.succ k)) with k by lia.
    constructor; [apply IH|].
    apply Forall_forall. intros j Hj%elem_of_seqZ. lia.
Qed.

Lemma result_mapM_Return {A B} (f : A → result B) l rows :
  result_mapM f l = Return rows ↔ Forall2 (λ k r, f k = Return r) l rows.
Proof.
  revert rows. induction l as [|x l IH]; intros rows; simpl.
  - split; [intros [= <-]; constructor|by intros ->%Forall2_nil_inv_l].
  - split.
    + destruct (f x) as [y|] eqn:Hx; [|done].
      destruct (result_mapM f l) as [ys|] eqn:Hl; [|done].
      intros [= <-]. constructor; [done|by apply IH].
    + intros (y & ys & Hx & Hl & ->)%Forall2_cons_inv_l.
      apply IH in Hl. by rewrite Hx, Hl.
Qed.

Lemma result_mapM_total {A B} (f : A → result B) l :
  (∀ k, k ∈ l → ∃ r, f k = Return r) → ∃ rows, result_mapM f l = Return rows.
Proof.
  induction l as [|x l IH]; intros Hok; simpl; [by eexists|].
  destruct (Hok x) as [y ->]; [by left|].
  destruct IH as [ys ->]; [|by eexists].
  intros k Hk. apply Hok. by right.
Qed.

(** A loop whose body only computes a row collects the rows in order and
    leaves the world alone. *)
Lemma for_append_lift {A B} (f : A → result B) l summary w :
  for_append l (λ k, lift (f k)) summary w
  = match result_mapM f l with
    | Return rows => (Return (summary ++ rows), w)
    | Raise e => (Raise e, w)
    end.
Proof.
  revert summary. induction l as [|x l IH]; intros summary; simpl.
  - unfold mret, Py_ret. by rewrite app_nil_r.
  - unfold mbind, Py_bind, lift at 1. destruct (f x) as [y|e]; [|done].
    rewrite IH. destruct (result_mapM f l) as [ys|e]; [|done].
    by rewrite <-app_assoc.
Qed.

(** [update_wcs_catalog] logs, assembles every row, and only then writes. *)
Lemma update_wcs_catalog_run env sectors w :
  update_wcs_catalog env sectors w
  = let journal' := journal w ++ ["Writing " +:+ WCS_CATALOG env] in
    match result_mapM (wcs_row env) (product (default (seqZ 1 (SECTORS env)) sectors)) with
    | Return rows =>
        (Return tt,
         mkWorld (<[WCS_CATALOG env := WcsFile rows]> (disk w))
           (tap_jobs w) (mast_cache w) journal')
    | Raise e => (Raise e, mkWorld (disk w) (tap_jobs w) (mast_cache w) journal')
    end.
Proof.
  unfold update_wcs_catalog, mbind, Py_bind, log_info. simpl.
  rewrite for_append_lift.
  by destruct (result_mapM _ _).
Qed.

Lemma wcs_row_Return env k r :
  wcs_row env k = Return r ↔ row_of_listing env k r.
Proof.
  destruct k as [[s c] d]. unfold wcs_row, row_of_listing, py_index, py_first, py_last.
  unfold mbind, result_mbind, mret, result_ret. simpl. split.
  - destruct (list_images env s c d) as [images|]; [simpl|done].
    destruct (images !! _) as [mid|] eqn:Hmid; [simpl|done].
    destruct (download_wcs env mid) as [wcs|] eqn:Hwcs; [simpl|done].
    destruct images as [|first images]; [done|simpl].
    destruct (last (first :: images)) as [lst|] eqn:Hlast; [simpl|done].
    intros [= <-]. exists (first :: images), first, lst, mid.
    split_and!; try done.
    rewrite last_lookup in Hlast. simpl in *. by rewrite Nat.sub_0_r.
  - intros (images & first & lst & mid & -> & Hfirst & Hlast & Hmid & Hkey & Hb & He & Hwcs).
    simpl. rewrite Hmid. simpl. rewrite Hwcs. simpl.
    destruct images as [|x images]; [done|]. simpl in Hfirst. injection Hfirst as ->.
    rewrite last_lookup, <-Nat.sub_1_r, Hlast. simpl. destruct r. unfold WcsRow.key in Hkey. simpl in *.
    by simplify_eq.
Qed.

Lemma upstream_ok_wcs_row env k : upstream_ok env k → ∃ r, wcs_row env k = Return r.
Proof.
  intros (images & mid & wcs & Himg & Hne & Hmid & Hwcs).
  destruct images as [|first images]; [done|].
  destruct (last (first :: images)) as [lst|] eqn:Hlast.
  - exists (WcsRow.mk k.1.1 k.1.2 k.2 (TessImage.begin first) (TessImage.end_ lst) wcs).
    apply wcs_row_Return. exists (first :: images), first, lst, mid.
    split_and!; try done.
    rewrite last_lookup in Hlast. simpl in *. by rewrite Nat.sub_0_r.
    by destruct k as [[??]?].
  - by apply last_None in Hlast.
Qed.

Lemma assembled_keys env l rows :
  result_mapM (wcs_row env) l = Return rows → WcsRow.key <$> rows = l.
Proof.
  rewrite result_mapM_Return. induction 1 as [|k r l rows Hk _ IH]; [done|].
  rewrite fmap_cons, IH. f_equal.
  apply wcs_row_Return in Hk. by destruct Hk as (?&?&?&?&?&?&?&?&?&?).
Qed.

Lemma Py_bind_inv {A B} (m : Py A) (f : A → Py B) w b w' :
  (m ≫= f) w = (Return b, w') → ∃ a w1, m w = (Return a, w1) ∧ f a w1 = (Return b, w').
Proof.
  unfold mbind, Py_bind. destruct (m w) as [[a|e] w1]; [|done]. by exists a, w1.
Qed.

(** The listing a query returns is in ascending order of the file names. *)
Lemma _query_ffi_catalog_sorted env sector w df w' :
  _query_ffi_catalog env sector w = (Return df, w') → StronglySorted filename_le df.
Proof.
  unfold _query_ffi_catalog. intros Hrun.
  repeat (apply Py_bind_inv in Hrun as (? & ? & _ & Hrun)).
  injection Hrun as <- _. apply StronglySorted_merge_sort; apply _.
Qed.


Lemma sample_upstream_ok k : upstream_ok Sample.env k.
Proof.
  unfold upstream_ok. simpl. unfold Sample.images_of.
  destruct (decide (k.1.1 = 1)); eexists _, _, _; split_and!; done.
Qed.


(** What a successful build has written. *)
Lemma update_wcs_catalog_Return env sectors w w' :
  update_wcs_catalog env sectors w = (Return tt, w') →
  ∃ rows,
    result_mapM (wcs_row env) (product (default (seqZ 1 (SECTORS env)) sectors)) = Return rows
    ∧ w' = mkWorld (<[WCS_CATALOG env := WcsFile rows]> (disk w)) (tap_jobs w)
             (mast_cache w) (journal w ++ ["Writing " +:+ WCS_CATALOG env]).
Proof.
  rewrite update_wcs_catalog_run. simpl.
  destruct (result_mapM _ _) as [rows|]; [|done].
  intros [= <-]. by exists rows.
Qed.

(** A build that raises has written nothing. *)
Lemma update_wcs_catalog_Raise env sectors w e w' :
  update_wcs_catalog env sectors w = (Raise e, w') → disk w' = disk w.
Proof.
  rewrite update_wcs_catalog_run. simpl.
  destruct (result_mapM _ _); [done|]. by intros [= _ <-].
Qed.






(** The old row of sector 7 in [Sample.used] does not survive a build over
    sector 1. *)
Example update_wcs_catalog_discards_sector7 :
  disk Sample.used !! WCS_CATALOG Sample.env = Some (WcsFile Sample.old_catalog)
  ∧ ∃ rows,
      disk (update_wcs_catalog Sample.env (Some [1]) Sample.used).2
        !! WCS_CATALOG Sample.env = Some (WcsFile rows)
      ∧ length rows = 16%nat
      ∧ Forall (λ r, WcsRow.sector r = 1) rows.
Proof.
  split; [by vm_compute|].
  eexists. split; [vm_compute; reflexivity|].
  split; [done|]. apply (bool_decide_unpack _). by vm_compute.
Qed.

(** A selection of rows of an ascending listing is ascending. *)
Lemma StronglySorted_filter {A} (R : relation A) (P : A → Prop)
    `{!∀ x, Decision (P x)} (l : list A) :
  StronglySorted R l → StronglySorted R (filter P l).
Proof.
  induction 1 as [|x l _ IH Hx]; [constructor|].
  rewrite filter_cons. destruct (decide (P x)); [|done].
  constructor; [done|].
  apply Forall_forall. intros y [_ Hy]%list_elem_of_filter.
  by eapply Forall_forall in Hx.
Qed.



(** In the sample the row of (1, 1, 1) spans from the begin of image [a1] to
    the end of image [a3] and carries the header of the middle image [a2]. *)
Example update_wcs_catalog_first_row :
  ∃ rows,
    disk (update_wcs_catalog Sample.env (Some [1; 2]) Sample.fresh).2
      !! WCS_CATALOG Sample.env = Some (WcsFile rows)
    ∧ rows !! 0%nat
      = Some (WcsRow.mk 1 1 1 "2018-07-25 00:00:00" "2018-08-22 00:00:00" "WCSAXES = 2 / a2").
Proof. eexists. split; [vm_compute; reflexivity|done]. Qed.

(** ** The sector-date index *)

Lemma foldl_str_min_is_min x l : is_min (foldl str_min x l) (x :: l).
Proof.
  revert x. induction l as [|y l IH]; intros x; simpl.
  - split; [by left|]. intros z ->%list_elem_of_singleton. apply str_le_refl.
  - destruct (IH (str_min x y)) as [Hin Hle]. unfold str_min in *.
    destruct (str_le x y) eqn:Hxy.
    + split.
      * apply elem_of_cons in Hin as [->|Hin]; [by left|by do 2 right].
      * intros z [->|[->|Hz]%elem_of_cons]%elem_of_cons.
        -- apply Hle. by left.
        -- eapply str_le_trans; [apply Hle; by left|done].
        -- apply Hle. by right.
    + assert (str_le y x = true) as Hyx.
      { destruct (str_le_total x y) as [H|H]; [congruence|done]. }
      split.
      * by right.
      * intros z [->|Hz]%elem_of_cons; [|by apply Hle].
        eapply str_le_trans; [apply Hle; by left|done].
Qed.

Lemma foldl_str_max_is_max x l : is_max (foldl str_max x l) (x :: l).
Proof.
  revert x. induction l as [|y l IH]; intros x; simpl.
  - split; [by left|]. intros z ->%list_elem_of_singleton. apply str_le_refl.
  - destruct (IH (str_max x y)) as [Hin Hle]. unfold str_max in *.
    destruct (str_le x y) eqn:Hxy.
    + split.
      * by right.
      * intros z [->|Hz]%elem_of_cons; [|by apply Hle].
        eapply str_le_trans; [done|apply Hle; by left].
    + assert (str_le y x = true) as Hyx.
      { destruct (str_le_total x y) as [H|H]; [congruence|done]. }
      split.
      * apply elem_of_cons in Hin as [->|Hin]; [by left|by do 2 right].
      * intros z [->|[->|Hz]%elem_of_cons]%elem_of_cons.
        -- apply Hle. by left.
        -- eapply str_le_trans; [done|apply Hle; by left].
        -- apply Hle. by right.
Qed.

Lemma series_min_Some l m : series_min l = Some m → is_min m l.
Proof. destruct l as [|x l]; [done|]. intros [= <-]. apply foldl_str_min_is_min. Qed.

Lemma series_max_Some l m : series_max l = Some m → is_max m l.
Proof. destruct l as [|x l]; [done|]. intros [= <-]. apply foldl_str_max_is_max. Qed.

Lemma series_min_is_Some l : l ≠ [] → is_Some (series_min l).
Proof. destruct l; [done|]. by eexists. Qed.

Lemma series_max_is_Some l : l ≠ [] → is_Some (series_max l).
Proof. destruct l; [done|]. by eexists. Qed.

Lemma elem_of_group_keys s db : s ∈ group_keys db ↔ s ∈ WcsRow.sector <$> db.
Proof. unfold group_keys. by rewrite merge_sort_Permutation, elem_of_remove_dups. Qed.

Lemma NoDup_group_keys db : NoDup (group_keys db).
Proof. unfold group_keys. rewrite merge_sort_Permutation. apply NoDup_remove_dups. Qed.

Lemma StronglySorted_group_keys db : StronglySorted Z.lt (group_keys db).
Proof.
  pose proof (NoDup_group_keys db) as Hnd.
  assert (StronglySorted Z.le (group_keys db)) as Hs.
  { apply StronglySorted_merge_sort; apply _. }
  induction Hs as [|k ks Hks IH Hk]; [constructor|].
  apply NoDup_cons in Hnd as [Hk' Hnd]. constructor; [by apply IH|].
  apply Forall_forall. intros j Hj.
  assert (k ≤ j) by by eapply Forall_forall in Hk.
  assert (k ≠ j) by by intros ->. lia.
Qed.

(** No group is empty. *)
Lemma group_nonempty (col : WcsRow.t → string) s db :
  s ∈ group_keys db → col <$> sector_rows s db ≠ [].
Proof.
  intros (r & -> & Hr)%elem_of_group_keys%list_elem_of_fmap.
  assert (col r ∈ col <$> sector_rows (WcsRow.sector r) db) as Hin.
  { apply list_elem_of_fmap_2, list_elem_of_filter. by split. }
  intros Hnil. rewrite Hnil in Hin. by apply elem_of_nil in Hin.
Qed.

Lemma elem_of_aggregate f col db kv :
  kv ∈ aggregate f (groupby_sector col db)
  ↔ kv.1 ∈ group_keys db ∧ f (col <$> sector_rows kv.1 db) = Some kv.2.
Proof.
  unfold aggregate, groupby_sector. rewrite list_elem_of_omap. split.
  - intros (g & (k & -> & Hk)%list_elem_of_fmap & Hf). simpl in Hf.
    destruct (f _) as [v|] eqn:Hv; [|done]. injection Hf as <-. by split.
  - intros [Hk Hf]. exists (kv.1, col <$> sector_rows kv.1 db). split.
    + apply list_elem_of_fmap. by exists kv.1.
    + cbn [fst snd]. rewrite Hf. by destruct kv.
Qed.

Lemma aggregate_keys_gen f (g : Z → list string) (ks : list Z) :
  (∀ k, k ∈ ks → is_Some (f (g k))) →
  (aggregate f ((λ k, (k, g k)) <$> ks)).*1 = ks.
Proof.
  unfold aggregate. induction ks as [|k ks IH]; intros Hf; [done|].
  destruct (Hf k) as [v Hv]; [by left|].
  rewrite fmap_cons. cbn [omap list_omap fst snd]. rewrite Hv. simpl. f_equal.
  apply IH. intros j Hj. apply Hf. by right.
Qed.

Lemma aggregate_keys f col db :
  (∀ l, l ≠ [] → is_Some (f l)) →
  (aggregate f (groupby_sector col db)).*1 = group_keys db.
Proof.
  intros Hf. unfold aggregate, groupby_sector.
  apply (aggregate_keys_gen f (λ k, col <$> filter (λ r, WcsRow.sector r = k) db)).
  intros k Hk. by apply Hf, group_nonempty.
Qed.

Lemma join_on_index_keys left right :
  DateRow.Index <$> join_on_index left right = left.*1.
Proof. unfold join_on_index. rewrite <-list_fmap_compose. done. Qed.

(** The rows of the index: the least begin and the greatest end of a group. *)
Lemma elem_of_get_sector_dates row db :
  row ∈ get_sector_dates db →
  DateRow.Index row ∈ group_keys db
  ∧ is_min (DateRow.begin row) (WcsRow.begin <$> sector_rows (DateRow.Index row) db)
  ∧ ∃ e, DateRow.end_ row = Some e
         ∧ is_max e (WcsRow.end_ <$> sector_rows (DateRow.Index row) db).
Proof.
  unfold get_sector_dates, join_on_index.
  intros (kb & -> & [Hk Hmin]%elem_of_aggregate)%list_elem_of_fmap. simpl.
  split; [done|]. split; [by apply series_min_Some|].
  assert (kb.1 ∈ (aggregate series_max (groupby_sector WcsRow.end_ db)).*1) as Hin.
  { rewrite aggregate_keys; [done|apply series_max_is_Some]. }
  apply list_elem_of_fmap in Hin as (ke & Hke & Hin).
  destruct (list_find_elem_of (λ kv : Z * string, kv.1 = kb.1) _ ke Hin) as [[i kv] Hfind];
    [done|].
  rewrite Hfind. simpl. exists kv.2. split; [done|].
  apply list_find_Some in Hfind as (Hlook & Hkv & _).
  apply list_elem_of_lookup_2, elem_of_aggregate in Hlook as [_ Hmax].
  rewrite Hkv in Hmax. by apply series_max_Some.
Qed.

Lemma filter_none {A} (P : A → Prop) `{!∀ x, Decision (P x)} (l : list A) :
  (∀ x, x ∈ l → ¬ P x) → filter P l = [].
Proof.
  intros Hno. destruct (filter P l) as [|x k] eqn:Hf; [done|].
  assert (x ∈ filter P l) as [Hx Hin]%list_elem_of_filter by (rewrite Hf; by left).
  by destruct (Hno x).
Qed.

Lemma filter_unique_key {A} (f : A → Z) (l : list A) x :
  NoDup (f <$> l) → x ∈ l → filter (λ y, f y = f x) l = [x].
Proof.
  induction l as [|y l IH]; intros Hnd Hx; [by apply elem_of_nil in Hx|].
  rewrite fmap_cons in Hnd. apply NoDup_cons in Hnd as [Hy Hnd].
  apply elem_of_cons in Hx as [->|Hx].
  - rewrite filter_cons_True by done. f_equal.
    apply filter_none. intros z Hz Heq.
    apply Hy. rewrite <-Heq. by apply list_elem_of_fmap_2.
  - rewrite filter_cons_False; [by apply IH|].
    intros Heq. apply Hy. rewrite Heq. by apply list_elem_of_fmap_2.
Qed.

Lemma get_sector_dates_keys db : DateRow.Index <$> get_sector_dates db = group_keys db.
Proof.
  unfold get_sector_dates. rewrite join_on_index_keys.
  apply aggregate_keys, series_min_is_Some.
Qed.

(** C9: the index has exactly one row for every sector of the catalog, and
    rows for no other sector; the row's begin is the least begin and its end
    the greatest end among the catalog rows of that sector. The rows are
    indexed by the sector number, in ascending order. *)
Theorem get_sector_dates_min_max db :
  (∀ s, s ∈ WcsRow.sector <$> db →
     ∃ row e,
       filter (λ r, DateRow.Index r = s) (get_sector_dates db) = [row]
       ∧ DateRow.Index row = s
       ∧ is_min (DateRow.begin row) (WcsRow.begin <$> sector_rows s db)
       ∧ DateRow.end_ row = Some e
       ∧ is_max e (WcsRow.end_ <$> sector_rows s db))
  ∧ (∀ row, row ∈ get_sector_dates db → DateRow.Index row ∈ WcsRow.sector <$> db)
  ∧ StronglySorted Z.lt (DateRow.Index <$> get_sector_dates db).
Proof.
  split_and!.
  - intros s Hs. apply elem_of_group_keys in Hs.
    rewrite <-get_sector_dates_keys in Hs.
    apply list_elem_of_fmap in Hs as (row & -> & Hrow).
    destruct (elem_of_get_sector_dates _ _ Hrow) as (_ & Hmin & e & He & Hmax).
    exists row, e. split_and!; try done.
    apply (filter_unique_key DateRow.Index); [|done].
    rewrite get_sector_dates_keys. apply NoDup_group_keys.
  - intros row Hrow. apply elem_of_group_keys.
    by apply elem_of_get_sector_dates in Hrow as [? _].
  - rewrite get_sector_dates_keys. apply StronglySorted_group_keys.
Qed.

(** Two sectors, out of order, with two rows each. *)
Example get_sector_dates_sample :
  get_sector_dates
    [ WcsRow.mk 2 1 1 "2018-08-22 00:00:01" "2018-09-19 00:00:00" "h";
      WcsRow.mk 1 1 2 "2018-07-25 00:00:05" "2018-08-22 00:00:00" "h";
      WcsRow.mk 1 1 1 "2018-07-25 00:00:00" "2018-08-21 00:00:00" "h";
      WcsRow.mk 2 1 2 "2018-08-23 00:00:00" "2018-09-20 00:00:00" "h" ]
  = Sample.dates.
Proof. reflexivity. Qed.

(** Every row of the index has both bounds. *)
Lemma get_sector_dates_complete db :
  Forall (λ row, is_Some (DateRow.end_ row)) (get_sector_dates db).
Proof.
  apply Forall_forall. intros row Hrow.
  apply elem_of_get_sector_dates in Hrow as (_ & _ & e & -> & _). by eexists.
Qed.

(** ** The lookups *)

Lemma query_nil df sector camera ccd :
  (∀ r, r ∈ df → ¬ (WcsRow.sector r = sector ∧ WcsRow.camera r = camera
                    ∧ WcsRow.ccd r = ccd)) →
  query df sector camera ccd = [].
Proof. intros Hno. by apply filter_none. Qed.

(** C2: when no row of the loaded catalog has the key, [get_wcs] raises:
    the [IndexError] of the empty selection reaches the caller, and no WCS
    object is returned in its place. *)
Theorem get_wcs_not_found env df sector camera ccd :
  (∀ r, r ∈ df → ¬ (WcsRow.sector r = sector ∧ WcsRow.camera r = camera
                    ∧ WcsRow.ccd r = ccd)) →
  get_wcs env df sector camera ccd = Raise IndexError
  ∧ ∀ wcs, get_wcs env df sector camera ccd ≠ Return wcs.
Proof.
  intros Hno. unfold get_wcs. rewrite query_nil by done.
  split; [done|]. by intros wcs.
Qed.

Lemma get_wcs_not_found_witness :
  get_wcs Sample.env Sample.old_catalog 1 1 1 = Raise IndexError
  ∧ ∀ wcs, get_wcs Sample.env Sample.old_catalog 1 1 1 ≠ Return wcs.
Proof.
  apply (get_wcs_not_found Sample.env Sample.old_catalog 1 1 1).
  intros r ->%list_elem_of_singleton. simpl. lia.
Defined.

(** When rows have the key, the first of them supplies the header. *)
Lemma get_wcs_found env df sector camera ccd row rest :
  query df sector camera ccd = row :: rest →
  get_wcs env df sector camera ccd = WCS env (WcsRow.wcs row).
Proof. unfold get_wcs. by intros ->. Qed.

Lemma in_interval_true time row : in_interval time row = Return true ↔ covers time row.
Proof.
  unfold in_interval, covers, str_ge, str_le. destruct (DateRow.end_ row) as [e|]; split.
  - intros [= [? ?]%andb_prop]. split; [done|]. by exists e.
  - intros (-> & e' & [= <-] & ->). done.
  - done.
  - by intros (_ & e' & ? & _).
Qed.

Lemma in_interval_false time row :
  is_Some (DateRow.end_ row) → ¬ covers time row → in_interval time row = Return false.
Proof.
  intros [e He] Hno. destruct (in_interval time row) as [[|]|err] eqn:Hin.
  - by apply in_interval_true in Hin.
  - done.
  - unfold in_interval in Hin. by rewrite He in Hin.
Qed.

Lemma scan_dates_skip before rest time :
  Forall (λ row, is_Some (DateRow.end_ row)) before →
  (∀ r, r ∈ before → ¬ covers time r) →
  scan_dates (before ++ rest) time = scan_dates rest time.
Proof.
  induction 1 as [|row before Hrow _ IH]; intros Hno; [done|]. simpl.
  rewrite in_interval_false; [|done|apply Hno; by left].
  apply IH. intros r Hr. apply Hno. by right.
Qed.

(** C1: on an index whose rows have both bounds, [time_to_sector] returns
    the sector of the first row, in the order of the index, whose interval
    contains the time, both ends included; when no interval contains the
    time it returns [None] and does not raise. *)
Theorem time_to_sector_first_match dates time :
  Forall (λ row, is_Some (DateRow.end_ row)) dates →
  (∀ before row after,
     dates = before ++ row :: after →
     (∀ r, r ∈ before → ¬ covers (as_str time) r) →
     covers (as_str time) row →
     time_to_sector dates time = Return (Some (DateRow.Index row)))
  ∧ ((∀ r, r ∈ dates → ¬ covers (as_str time) r) →
     time_to_sector dates time = Return None).
Proof.
  intros Hends. unfold time_to_sector. split.
  - intros before row after -> Hbefore Hrow.
    apply Forall_app in Hends as [Hends _].
    rewrite scan_dates_skip by done. simpl.
    by apply in_interval_true in Hrow as ->.
  - intros Hno. rewrite <-(app_nil_r dates). by rewrite scan_dates_skip.
Qed.

Lemma time_to_sector_first_match_witness :
  time_to_sector Sample.dates (StrArg "2018-08-01 00:00:00") = Return (Some 1)
  ∧ time_to_sector Sample.dates (StrArg "2017-01-01 00:00:00") = Return None.
Proof.
  assert (Forall (λ row, is_Some (DateRow.end_ row)) Sample.dates) as Hends.
  { repeat constructor; by eexists. }
  split.
  - apply (proj1 (time_to_sector_first_match Sample.dates
                    (StrArg "2018-08-01 00:00:00") Hends)
             [] (DateRow.mk 1 "2018-07-25 00:00:00" (Some "2018-08-22 00:00:00"))
             [DateRow.mk 2 "2018-08-22 00:00:01" (Some "2018-09-20 00:00:00")]).
    + reflexivity.
    + intros r Hr. by apply elem_of_nil in Hr.
    + split; [reflexivity|]. eexists. split; reflexivity.
  - apply (proj2 (time_to_sector_first_match Sample.dates
                    (StrArg "2017-01-01 00:00:00") Hends)).
    intros r Hr [Hbegin _]. unfold Sample.dates in Hr.
    repeat (apply elem_of_cons in Hr as [->|Hr]; [discriminate Hbegin|]).
    by apply elem_of_nil in Hr.
Defined.

(** The end of an interval belongs to it, and so does its begin. *)
Example time_to_sector_inclusive :
  time_to_sector Sample.dates (StrArg "2018-08-22 00:00:00") = Return (Some 1)
  ∧ time_to_sector Sample.dates (StrArg "2018-08-22 00:00:01") = Return (Some 2).
Proof. split; reflexivity. Qed.

(** On the index that [get_sector_dates] derives from a catalog the lookup
    never raises. *)
Lemma time_to_sector_total db time :
  ∃ found, time_to_sector (get_sector_dates db) time = Return found.
Proof.
  unfold time_to_sector. generalize (as_str time) as t. intros t.
  induction (get_sector_dates_complete db) as [|row dates [e He] _ IH]; simpl.
  - by eexists.
  - unfold in_interval. rewrite He. destruct (_ && _); [by eexists|done].
Qed.

(** ** The form of the compared strings *)

Lemma is_digit_val c : is_digit c = true → 0 ≤ digit_val c ≤ 9.
Proof.
  unfold is_digit, digit_val, Ascii.leb, Ascii.compare.
  intros [H0 H9]%andb_prop.
  change (N_of_ascii "0") with 48%N in H0. change (N_of_ascii "9") with 57%N in H9.
  destruct (N.compare_spec 48 (N_of_ascii c)); destruct (N.compare_spec (N_of_ascii c) 57);
    try done; lia.
Qed.

(** Strings of one form have as many digits, and a value below the
    matching power of ten. *)
Lemma matches_form_value pat a b :
  Forall (λ o, ∀ sep, o = Some sep → is_digit sep = false) pat →
  matches_form pat a = true → matches_form pat b = true →
  digit_count a = digit_count b
  ∧ 0 ≤ stamp_value a < 10 ^ Z.of_nat (digit_count a)
  ∧ match String.compare a b with
    | Eq => stamp_value a = stamp_value b
    | Lt => stamp_value a < stamp_value b
    | Gt => stamp_value b < stamp_value a
    end.
Proof.
  intros Hpat. revert a b.
  induction Hpat as [|o pat Ho _ IH]; intros [|ca a] [|cb b]; simpl; try done.
  - by destruct o.
  - by destruct o.
  - destruct o as [sep|].
    + intros [->%Ascii.eqb_eq Ha]%andb_prop [->%Ascii.eqb_eq Hb]%andb_prop.
      rewrite (Ho sep eq_refl).
      unfold Ascii.compare. rewrite N.compare_refl. by apply IH.
    + intros [Hca Ha]%andb_prop [Hcb Hb]%andb_prop. rewrite Hca, Hcb.
      destruct (IH a b Ha Hb) as (Hcount & Hrange & Hcmp).
      destruct (IH b b Hb Hb) as (_ & Hrangeb & _).
      pose proof (is_digit_val _ Hca) as Hda. pose proof (is_digit_val _ Hcb) as Hdb.
      rewrite <-Hcount in *. rewrite Nat2Z.inj_succ, Z.pow_succ_r by lia.
      set (P := 10 ^ Z.of_nat (digit_count a)) in *.
      split; [done|]. split; [nia|].
      unfold Ascii.compare.
      destruct (N.compare_spec (N_of_ascii ca) (N_of_ascii cb)) as [Heq|Hlt|Hgt].
      * assert (digit_val ca = digit_val cb) as -> by (unfold digit_val; lia).
        destruct (String.compare a b); lia.
      * assert (digit_val ca + 1 ≤ digit_val cb) by (unfold digit_val; lia). nia.
      * assert (digit_val cb + 1 ≤ digit_val ca) by (unfold digit_val; lia). nia.
Qed.

Lemma seconds_pattern_separators :
  Forall (λ o, ∀ sep, o = Some sep → is_digit sep = false) seconds_pattern.
Proof. unfold seconds_pattern. repeat constructor; by intros sep [= <-]. Qed.

(** Between two timestamps of the form of the index the order of the
    strings is the order in time. *)
Lemma seconds_form_str_le a b :
  seconds_form a = true → seconds_form b = true →
  str_le a b = true ↔ stamp_value a ≤ stamp_value b.
Proof.
  intros Ha Hb.
  destruct (matches_form_value _ a b seconds_pattern_separators Ha Hb) as (_ & _ & Hcmp).
  unfold str_le, String.leb. destruct (String.compare a b); split; try done; lia.
Qed.

Lemma covers_in_time time row e :
  DateRow.end_ row = Some e →
  seconds_form time = true → seconds_form (DateRow.begin row) = true →
  seconds_form e = true →
  covers time row ↔ stamp_value (DateRow.begin row) ≤ stamp_value time ≤ stamp_value e.
Proof.
  intros He Ht Hb Hf. unfold covers. rewrite He.
  rewrite seconds_form_str_le by done. split.
  - intros (? & e' & [= <-] & Hle). by apply seconds_form_str_le in Hle.
  - intros [? ?]. split; [done|]. exists e. split; [done|]. by apply seconds_form_str_le.
Qed.

(** C5, as the code has it: [time_to_sector] turns a [Time] into a string
    by its [iso] attribute and takes a string as it is given; it does not
    bring the input into the form of the index. The string is compared, as
    a string, with the bounds of the rows. When it has the form
    [YYYY-MM-DD HH:MM:SS] of the bounds, a row's interval contains it
    exactly when it lies between the bounds in time. *)
Theorem time_to_sector_compares_as_given dates time :
  as_str time = match time with StrArg s => s | TimeArg t => Time.iso t end
  ∧ time_to_sector dates time = scan_dates dates (as_str time)
  ∧ (seconds_form (as_str time) = true →
     ∀ row e, row ∈ dates → DateRow.end_ row = Some e →
       seconds_form (DateRow.begin row) = true → seconds_form e = true →
       covers (as_str time) row
       ↔ stamp_value (DateRow.begin row) ≤ stamp_value (as_str time) ≤ stamp_value e).
Proof.
  split_and!; [by destruct time|done|].
  intros Ht row e _ He Hb Hf. by apply covers_in_time.
Qed.

Lemma time_to_sector_compares_as_given_witness :
  covers "2018-08-22 00:00:00"
    (DateRow.mk 1 "2018-07-25 00:00:00" (Some "2018-08-22 00:00:00"))
  ↔ 20180725000000 ≤ 20180822000000 ≤ 20180822000000.
Proof.
  apply (proj2 (proj2 (time_to_sector_compares_as_given Sample.dates
                         (StrArg "2018-08-22 00:00:00")))
           eq_refl (DateRow.mk 1 "2018-07-25 00:00:00" (Some "2018-08-22 00:00:00"))
           "2018-08-22 00:00:00").
  - by left.
  - reflexivity.
  - reflexivity.
  - reflexivity.
Defined.

(** C5, as the specification has it, fails: a string that is not in the
    form of the index is compared as it stands. The ISO 8601 spelling with
    a [T] of the last second of sector 1 is no timestamp of the index's form
    and is looked up in sector 2, while the index's own spelling of the same
    second is looked up in sector 1. *)
Lemma time_to_sector_input_not_normalized :
  ¬ (∀ time, seconds_form (as_str time) = true)
  ∧ as_str (StrArg "2018-08-22T00:00:00") = "2018-08-22T00:00:00"
  ∧ seconds_form "2018-08-22T00:00:00" = false
  ∧ time_to_sector Sample.dates (StrArg "2018-08-22T00:00:00") = Return (Some 2)
  ∧ time_to_sector Sample.dates (StrArg "2018-08-22 00:00:00") = Return (Some 1).
Proof.
  split_and!; try reflexivity.
  intros Hall. by specialize (Hall (StrArg "2018-08-22T00:00:00")).
Qed.

(** A [Time] whose [iso] attribute carries fractional seconds is compared
    with them: at the last second of sector 1 it is past the end of sector 1
    and before the begin of sector 2. *)
Example time_to_sector_fractional_seconds :
  as_str (TimeArg (Time.mk "2018-08-22 00:00:00.000")) = "2018-08-22 00:00:00.000"
  ∧ seconds_form "2018-08-22 00:00:00.000" = false
  ∧ time_to_sector Sample.dates (TimeArg (Time.mk "2018-08-22 00:00:00.000")) = Return None.
Proof. split_and!; reflexivity. Qed.

(** The listing catalog itself cuts [iso] down to the 19 characters of the
    form of the index. *)
Example str_slice_stop_seconds :
  str_slice_stop 19 "2018-08-22 00:00:00.000" = "2018-08-22 00:00:00"
  ∧ seconds_form (str_slice_stop 19 "2018-08-22 00:00:00.000") = true.
Proof. split; reflexivity. Qed.

(** * Further properties of the two modules *)

(** ** The caches *)

Lemma find_front {K V} `{EqDecision K} (k : K) (v : V) c :
  Lru.find k ((k, v) :: c) = Some v.
Proof. unfold Lru.find. simpl. by rewrite decide_True. Qed.

Lemma find_Some_elem {K V} `{EqDecision K} (k : K) (v : V) c :
  Lru.find k c = Some v → (k, v) ∈ c.
Proof.
  unfold Lru.find. destruct (list_find _ c) as [[i [k' v']]|] eqn:Hfind; [|done].
  intros [= <-]. apply list_find_Some in Hfind as (Hlook & Hk & _).
  simpl in Hk. subst k'. by eapply list_elem_of_lookup_2.
Qed.

Lemma find_None_fresh {K V} `{EqDecision K} (k : K) (c : Lru.t K V) :
  Lru.find k c = None → k ∉ c.*1.
Proof.
  unfold Lru.find. destruct (list_find _ c) as [?|] eqn:Hfind; [done|]. intros _.
  intros ([k' v] & Hk & Hin)%list_elem_of_fmap. simpl in Hk. subst k.
  destruct (list_find_elem_of (λ kv : K * V, kv.1 = k') c (k', v)) as [? Hsome]; [done..|].
  by rewrite Hsome in Hfind.
Qed.

Lemma remove_fresh {K V} `{EqDecision K} (k : K) (c : Lru.t K V) :
  k ∉ (Lru.remove k c).*1.
Proof.
  intros ([k' v] & Hk & [Hne _]%list_elem_of_filter)%list_elem_of_fmap. by apply Hne.
Qed.

Lemma remove_id {K V} `{EqDecision K} (k : K) (c : Lru.t K V) :
  k ∉ c.*1 → Lru.remove k c = c.
Proof.
  unfold Lru.remove, Lru.t in *. induction c as [|[k' v] c IH]; intros Hk; [done|].
  rewrite filter_cons_True.
  - f_equal. apply IH. intros Hin. apply Hk. by right.
  - simpl. intros ->. apply Hk. by left.
Qed.

Lemma remove_NoDup {K V} `{EqDecision K} (k : K) (c : Lru.t K V) :
  NoDup c.*1 → NoDup (Lru.remove k c).*1.
Proof.
  intros Hnd. eapply sublist_NoDup; [done|]. unfold Lru.remove.
  apply fmap_sublist, sublist_filter.
Qed.

Lemma touch_ok {K V} `{EqDecision K} n (k : K) (v : V) c :
  k ∈ c.*1 → lru_ok n c → lru_ok n (Lru.touch k v c).
Proof.
  intros ([k' v'] & Hk & Hin)%list_elem_of_fmap [Hlen Hnd]. simpl in Hk. subst k. split.
  - unfold Lru.touch, Lru.remove. simpl.
    eapply Nat.le_trans; [|exact Hlen].
    apply (length_filter_lt _ _ (k', v')); [done|]. simpl. intros Hne. by apply Hne.
  - unfold Lru.touch. rewrite fmap_cons. apply NoDup_cons.
    split; [apply remove_fresh|by apply remove_NoDup].
Qed.

Lemma store_ok {K V} `{EqDecision K} n (k : K) (v : V) c :
  NoDup c.*1 → lru_ok n (Lru.store n k v c).
Proof.
  intros Hnd. unfold Lru.store. split.
  - rewrite length_take. lia.
  - eapply sublist_NoDup; [|apply fmap_sublist, sublist_take].
    rewrite fmap_cons. apply NoDup_cons.
    split; [apply remove_fresh|by apply remove_NoDup].
Qed.

(** A cache that has [k] in front answers [k] without running the body and
    stays as it is. *)
Lemma memo_front {K V} `{EqDecision K} n (g : K → result V) (k : K) (v : V) c :
  k ∉ c.*1 → Lru.memo n g k ((k, v) :: c) = (Return v, (k, v) :: c).
Proof.
  intros Hk. unfold Lru.memo. rewrite find_front. unfold Lru.touch, Lru.remove, Lru.t.
  rewrite filter_cons_False by (simpl; by intros ?).
  f_equal. f_equal. by apply remove_id.
Qed.

Lemma take_fresh {K V} (k : K) n (c : Lru.t K V) : k ∉ c.*1 → k ∉ (take n c).*1.
Proof.
  intros Hk Hin. apply Hk.
  eapply elem_of_sublist; [done|]. apply fmap_sublist, sublist_take.
Qed.

(** X1: the cache of a function under [lru_cache(maxsize)] stays within
    [maxsize] entries, keeps one entry per argument at most, and holds only
    values the function returned. *)
Theorem lru_cache_invariant {K V} `{EqDecision K} (maxsize : nat)
    (f : K → result V) (k : K) (c : Lru.t K V) :
  lru_ok maxsize c → coherent f c →
  lru_ok maxsize (Lru.memo maxsize f k c).2
  ∧ coherent f (Lru.memo maxsize f k c).2
  ∧ (Lru.memo maxsize f k c).1 = f k.
Proof.
  intros Hok Hc. destruct (memo_result maxsize f k c Hc) as [Hres Hc'].
  split_and!; [|done|done].
  unfold Lru.memo. destruct (Lru.find k c) as [v|] eqn:Hfind; simpl.
  - apply touch_ok; [|done].
    apply find_Some_elem in Hfind. by apply (list_elem_of_fmap_2 fst) in Hfind.
  - destruct (f k); simpl; [|done]. apply store_ok, Hok.
Qed.

Lemma lru_cache_invariant_witness :
  lru_ok 4096 (get_wcs_cached Sample.env Sample.old_catalog (7, 1, 1) []).2
  ∧ coherent (λ k, get_wcs Sample.env Sample.old_catalog k.1.1 k.1.2 k.2)
      (get_wcs_cached Sample.env Sample.old_catalog (7, 1, 1) []).2
  ∧ (get_wcs_cached Sample.env Sample.old_catalog (7, 1, 1) []).1
    = get_wcs Sample.env Sample.old_catalog 7 1 1.
Proof.
  apply (lru_cache_invariant 4096
           (λ k, get_wcs Sample.env Sample.old_catalog k.1.1 k.1.2 k.2) (7, 1, 1) []).
  - split; [simpl; lia|constructor].
  - intros k v Hin. by apply elem_of_nil in Hin.
Defined.

(** X2: once a call under [lru_cache] has returned, the next call with the same
    argument returns the same value from the cache: the body is not run
    again, whatever it would return by now, and the cache does not change. *)
Theorem lru_cache_second_call {K V} `{EqDecision K} (maxsize : nat)
    (f g : K → result V) (k : K) (c c' : Lru.t K V) (v : V) :
  (1 ≤ maxsize)%nat →
  Lru.memo maxsize f k c = (Return v, c') →
  Lru.memo maxsize g k c' = (Return v, c').
Proof.
  intros Hn. unfold Lru.memo at 1.
  destruct (Lru.find k c) as [v'|] eqn:Hfind.
  - intros [= -> <-]. apply memo_front, remove_fresh.
  - destruct (f k) as [v'|e]; [|done]. intros [= -> <-].
    unfold Lru.store. destruct maxsize as [|n]; [lia|]. simpl.
    apply memo_front, take_fresh, remove_fresh.
Qed.

Lemma lru_cache_second_call_witness :
  get_wcs_cached Sample.env [] (7, 1, 1)
    (get_wcs_cached Sample.env Sample.old_catalog (7, 1, 1) []).2
  = (Return (Wcs.mk "WCSAXES = 2 / old"),
     (get_wcs_cached Sample.env Sample.old_catalog (7, 1, 1) []).2).
Proof.
  apply (lru_cache_second_call 4096
           (λ k, get_wcs Sample.env Sample.old_catalog k.1.1 k.1.2 k.2)
           (λ k, get_wcs Sample.env [] k.1.1 k.1.2 k.2) (7, 1, 1) []).
  - lia.
  - reflexivity.
Defined.

(** ** What the listing catalog does to the files *)

Lemma keeps_disk_ret {A} (a : A) : keeps_disk (mret a).
Proof. by intros w r w' [= <- <-]. Qed.

Lemma keeps_disk_lift {A} (r : result A) : keeps_disk (lift r).
Proof. by intros w r' w' [= <- <-]. Qed.

Lemma keeps_disk_log msg : keeps_disk (log_info msg).
Proof. by intros w r w' [= <- <-]. Qed.

Lemma keeps_disk_bind {A B} (m : Py A) (f : A → Py B) :
  keeps_disk m → (∀ a, keeps_disk (f a)) → keeps_disk (m ≫= f).
Proof.
  intros Hm Hf w r w' Hrun. unfold mbind, Py_bind in Hrun.
  destruct (m w) as [[a|e] w1] eqn:Hmw.
  - rewrite (Hf a _ _ _ Hrun). by apply (Hm _ _ _ Hmw).
  - injection Hrun as <- <-. by apply (Hm _ _ _ Hmw).
Qed.

Lemma keeps_disk_mast env sector : keeps_disk (_mast_ffi_query env sector).
Proof.
  intros w r w'. unfold _mast_ffi_query.
  destruct (Lru.find sector (mast_cache w)); [by intros [= <- <-]|].
  destruct (tap_service env sector); by intros [= <- <-].
Qed.

Lemma keeps_disk_query env sector : keeps_disk (_query_ffi_catalog env sector).
Proof.
  unfold _query_ffi_catalog.
  apply keeps_disk_bind; [apply keeps_disk_mast|intros tbl].
  repeat (apply keeps_disk_bind; [apply keeps_disk_lift|intros ?]).
  apply keeps_disk_ret.
Qed.

(** The three ways a fetch ends: it skips, the query raises, or it writes. *)
Lemma fetch_ffi_catalog_inv env sector path w r w' :
  fetch_ffi_catalog env sector path w = (r, w') →
  let p := default (_ffi_catalog_path env sector) path in
  (is_Some (disk w !! p) ∧ r = Return None
   ∧ w' = logged ("Skipping sector " +:+ pretty sector
                  +:+ ": file already exists (" +:+ p +:+ ")") w)
  ∨ (disk w !! p = None
     ∧ ∃ e, r = Raise e
            ∧ _query_ffi_catalog env sector (logged ("Writing " +:+ p) w) = (Raise e, w'))
  ∨ (disk w !! p = None
     ∧ ∃ df w1, r = Return (Some df)
                ∧ _query_ffi_catalog env sector (logged ("Writing " +:+ p) w) = (Return df, w1)
                ∧ w' = mkWorld (<[p := ListingFile df]> (disk w1)) (tap_jobs w1)
                         (mast_cache w1) (journal w1)).
Proof.
  unfold fetch_ffi_catalog, path_exists, mbind, Py_bind, log_info, write_file, logged.
  simpl. case_bool_decide as Hp.
  - intros [= <- <-]. by left.
  - assert (disk w !! default (_ffi_catalog_path env sector) path = None) as Hnone.
    { by apply eq_None_not_Some. }
    destruct (_query_ffi_catalog env sector _) as [[df|e] w1] eqn:Hq.
    + intros [= <- <-]. right. right. split; [done|]. by exists df, w1.
    + intros [= <- <-]. right. left. split; [done|]. by exists e.
Qed.

(** X3: a fetch that raises has written nothing: the files are as before. *)
Theorem fetch_ffi_catalog_failure_keeps_disk env sector path w e w' :
  fetch_ffi_catalog env sector path w = (Raise e, w') → disk w' = disk w.
Proof.
  intros [(_ & [=] & _)|[(_ & e' & _ & Hq)|(_ & df & w1 & [=] & _)]]%fetch_ffi_catalog_inv.
  by apply keeps_disk_query in Hq.
Qed.

Lemma fetch_ffi_catalog_failure_keeps_disk_witness :
  disk (fetch_ffi_catalog (Sample.env_down 2) 2 None Sample.used).2 = disk Sample.used.
Proof.
  apply (fetch_ffi_catalog_failure_keeps_disk (Sample.env_down 2) 2 None Sample.used
           (UpstreamError "timeout")).
  vm_compute. reflexivity.
Defined.

(** X4: a fetch that returns rows found no file at its path and has written
    exactly these rows there, touching no other file; a second fetch then
    skips: it returns [None], writes nothing and sends no job. *)
Theorem fetch_ffi_catalog_then_skip env sector path w df w' :
  fetch_ffi_catalog env sector path w = (Return (Some df), w') →
  let p := default (_ffi_catalog_path env sector) path in
  disk w !! p = None
  ∧ disk w' = <[p := ListingFile df]> (disk w)
  ∧ ∃ w'', fetch_ffi_catalog env sector path w' = (Return None, w'')
           ∧ disk w'' = disk w' ∧ tap_jobs w'' = tap_jobs w'.
Proof.
  intros [(_ & [=] & _)|[(_ & e' & [=] & _)|(Hnone & df' & w1 & [= <-] & Hq & ->)]]%fetch_ffi_catalog_inv.
  simpl. split; [done|]. apply keeps_disk_query in Hq. unfold logged in Hq. simpl in Hq. rewrite Hq.
  split; [done|]. eexists. split.
  - unfold fetch_ffi_catalog, path_exists, mbind, Py_bind. simpl.
    rewrite bool_decide_eq_true_2; [done|]. rewrite lookup_insert_eq. by eexists.
  - split; reflexivity.
Qed.

Lemma fetch_ffi_catalog_then_skip_witness :
  disk Sample.fresh !! _ffi_catalog_path Sample.env 2 = None
  ∧ disk (fetch_ffi_catalog Sample.env 2 None Sample.fresh).2
    = <[_ffi_catalog_path Sample.env 2 :=
          ListingFile (sort_values_filename
            [ FfiRow.mk "tess2018206192942-s0002-1-2-0120-s_ffic.fits" 2 1 2
                "2018-07-25 00:00:00" "2018-07-25 00:00:00";
              FfiRow.mk "tess2018206192942-s0002-1-1-0120-s_ffic.fits" 2 1 1
                "2018-07-25 00:00:00" "2018-07-25 00:00:00" ])]> (disk Sample.fresh)
  ∧ ∃ w'', fetch_ffi_catalog Sample.env 2 None
             (fetch_ffi_catalog Sample.env 2 None Sample.fresh).2 = (Return None, w'')
           ∧ disk w'' = disk (fetch_ffi_catalog Sample.env 2 None Sample.fresh).2
           ∧ tap_jobs w'' = tap_jobs (fetch_ffi_catalog Sample.env 2 None Sample.fresh).2.
Proof.
  apply (fetch_ffi_catalog_then_skip Sample.env 2 None Sample.fresh).
  vm_compute. reflexivity.
Defined.

Lemma keeps_files_fetch env sector path : keeps_files (fetch_ffi_catalog env sector path).
Proof.
  intros w r w' Hrun p f Hp.
  apply fetch_ffi_catalog_inv in Hrun
    as [(_ & _ & ->)|[(_ & e & _ & Hq)|(Hnone & df & w1 & _ & Hq & ->)]]; simpl.
  - done.
  - apply keeps_disk_query in Hq. by rewrite Hq.
  - apply keeps_disk_query in Hq. unfold logged in Hq. simpl in Hq. rewrite Hq.
    rewrite lookup_insert_ne; [done|]. intros <-. by rewrite Hnone in Hp.
Qed.

Lemma keeps_files_fetch_step env sector : keeps_files (fetch_step env sector).
Proof.
  intros w r w' Hrun p f Hp. unfold fetch_step, mbind, Py_bind, log_info in Hrun.
  destruct (fetch_ffi_catalog env sector None _) as [[o|e] w1] eqn:Hfetch;
    injection Hrun as <- <-; by apply (keeps_files_fetch _ _ _ _ _ _ Hfetch).
Qed.

Lemma keeps_files_for_each {A} (body : A → Py unit) l :
  (∀ x, keeps_files (body x)) → keeps_files (for_each l body).
Proof.
  intros Hbody. induction l as [|x l IH]; intros w r w' Hrun p f Hp; simpl in Hrun.
  - by injection Hrun as <- <-.
  - unfold mbind, Py_bind in Hrun. destruct (body x w) as [[[]|e] w1] eqn:Hx.
    + eapply IH; [done|]. by eapply Hbody.
    + injection Hrun as <- <-. by eapply Hbody.
Qed.

(** X5: however [fetch_all_catalogs] ends, a file that existed before it still
    exists and holds what it held: the loop only ever creates files. *)
Theorem fetch_all_catalogs_keeps_files env w r w' path f :
  fetch_all_catalogs env w = (r, w') →
  disk w !! path = Some f → disk w' !! path = Some f.
Proof.
  intros Hrun. revert path f.
  apply (keeps_files_for_each (fetch_step env) _ (keeps_files_fetch_step env) _ _ _ Hrun).
Qed.

Lemma fetch_all_catalogs_keeps_files_witness :
  disk (fetch_all_catalogs Sample.env Sample.used).2 !! _ffi_catalog_path Sample.env 1
  = Some (ListingFile Sample.listing1).
Proof.
  apply (fetch_all_catalogs_keeps_files Sample.env Sample.used (Return tt)).
  - vm_compute. reflexivity.
  - apply lookup_insert_eq.
Defined.

Lemma fetch_step_creates env sector w w' :
  fetch_step env sector w = (Return tt, w') →
  is_Some (disk w' !! _ffi_catalog_path env sector).
Proof.
  unfold fetch_step, mbind, Py_bind, log_info.
  destruct (fetch_ffi_catalog env sector None _) as [[o|e] w1] eqn:Hfetch; [|done].
  intros [= <-].
  apply fetch_ffi_catalog_inv in Hfetch
    as [(Hp & _ & ->)|[(_ & e & [=] & _)|(_ & df & w2 & _ & _ & ->)]]; simpl in *.
  - done.
  - rewrite lookup_insert_eq. by eexists.
Qed.

Lemma for_each_creates env l w w' :
  for_each l (fetch_step env) w = (Return tt, w') →
  ∀ k, k ∈ l → is_Some (disk w' !! _ffi_catalog_path env k).
Proof.
  revert w. induction l as [|x l IH]; intros w Hrun k Hk; [by apply elem_of_nil in Hk|].
  simpl in Hrun. unfold mbind, Py_bind in Hrun.
  destruct (fetch_step env x w) as [[[]|e] w1] eqn:Hx; [|done].
  apply elem_of_cons in Hk as [->|Hk]; [|by eapply IH].
  destruct (fetch_step_creates _ _ _ _ Hx) as [f Hf]. exists f.
  by apply (keeps_files_for_each (fetch_step env) l (keeps_files_fetch_step env) _ _ _ Hrun).
Qed.

(** X6: when [fetch_all_catalogs] returns, every sector from 1 to [SECTORS] has
    its listing file. *)
Theorem fetch_all_catalogs_complete env w w' k :
  fetch_all_catalogs env w = (Return tt, w') →
  1 ≤ k ≤ SECTORS env →
  is_Some (disk w' !! _ffi_catalog_path env k).
Proof.
  intros Hrun Hk. apply (for_each_creates _ _ _ _ Hrun). apply elem_of_seqZ. lia.
Qed.

Lemma fetch_all_catalogs_complete_witness :
  is_Some (disk (fetch_all_catalogs Sample.env Sample.fresh).2
             !! _ffi_catalog_path Sample.env 2).
Proof.
  apply (fetch_all_catalogs_complete Sample.env Sample.fresh).
  - vm_compute. reflexivity.
  - simpl. lia.
Defined.

(** X7: the jobs a fetch sends to the archive: one, for its own sector, when the
    file is absent and the sector's table is not in the cache of
    [_mast_ffi_query]; none otherwise. This holds also when the fetch
    raises. *)
Theorem fetch_ffi_catalog_jobs env sector path w :
  tap_jobs (fetch_ffi_catalog env sector path w).2 =
    tap_jobs w ++
    (if bool_decide (is_Some (disk w !! default (_ffi_catalog_path env sector) path))
     then []
     else match Lru.find sector (mast_cache w) with
          | Some _ => []
          | None => [sector]
          end).
Proof.
  assert (∀ v r1 v1, _mast_ffi_query env sector v = (r1, v1) →
            tap_jobs v1 = tap_jobs v ++ match Lru.find sector (mast_cache v) with
                                         | Some _ => []
                                         | None => [sector]
                                         end) as Hmast.
  { intros v r1 v1. unfold _mast_ffi_query.
    destruct (Lru.find sector (mast_cache v)).
    - intros [= <- <-]. simpl. by rewrite app_nil_r.
    - destruct (tap_service env sector); by intros [= <- <-]. }
  assert (∀ v r1 v1, _query_ffi_catalog env sector v = (r1, v1) →
            ∃ r2, _mast_ffi_query env sector v = (r2, v1)) as Hquery.
  { intros v r1 v1. unfold _query_ffi_catalog, mbind, Py_bind, lift, mret, Py_ret.
    destruct (_mast_ffi_query env sector v) as [[tbl|e] v2]; [|intros [= <- <-]; by eexists].
    repeat (destruct (result_mapM _ _); [|intros [= <- <-]; by eexists]).
    intros [= <- <-]. by eexists. }
  destruct (fetch_ffi_catalog env sector path w) as [r w'] eqn:Hrun.
  apply fetch_ffi_catalog_inv in Hrun
    as [(Hp & _ & ->)|[(Hp & e & _ & Hq)|(Hp & df & w1 & _ & Hq & ->)]]; simpl.
  - rewrite bool_decide_eq_true_2 by done. by rewrite app_nil_r.
  - rewrite bool_decide_eq_false_2 by (rewrite Hp; by intros [? ?]).
    apply Hquery in Hq as [r2 Hq]. by apply Hmast in Hq.
  - rewrite bool_decide_eq_false_2 by (rewrite Hp; by intros [? ?]).
    apply Hquery in Hq as [r2 Hq]. by apply Hmast in Hq.
Qed.

(** On a fresh process with an empty disk the two sectors of the sample cost
    one job each, in order. *)
Example fetch_all_catalogs_jobs_sample :
  tap_jobs (fetch_all_catalogs Sample.env Sample.fresh).2 = [1; 2].
Proof. reflexivity. Qed.

(** ** The cache of the archive query *)

(** X8: once [_mast_ffi_query] has returned a sector's table, the next call for
    the sector returns the same table from the cache and changes nothing: no
    job is sent and nothing is logged, whatever the archive would answer by
    then. *)
Theorem mast_ffi_query_cached env env2 sector w tbl w1 :
  _mast_ffi_query env sector w = (Return tbl, w1) →
  _mast_ffi_query env2 sector w1 = (Return tbl, w1).
Proof.
  assert (∀ rest d j l, sector ∉ rest.*1 →
            _mast_ffi_query env2 sector (mkWorld d j ((sector, tbl) :: rest) l)
            = (Return tbl, mkWorld d j ((sector, tbl) :: rest) l)) as Hfront.
  { intros rest d j l Hrest. unfold _mast_ffi_query. simpl. rewrite find_front.
    unfold Lru.touch, Lru.remove, Lru.t.
    rewrite filter_cons_False by (simpl; by intros ?).
    do 3 f_equal. by apply remove_id. }
  unfold _mast_ffi_query at 1.
  destruct (Lru.find sector (mast_cache w)) as [tbl'|] eqn:Hfind.
  - intros [= -> <-]. apply Hfront, remove_fresh.
  - destruct (tap_service env sector) as [tbl'|e]; [|done]. intros [= -> <-].
    apply (Hfront (take 127 (Lru.remove sector (mast_cache w)))).
    apply take_fresh, remove_fresh.
Qed.

Lemma mast_ffi_query_cached_witness :
  _mast_ffi_query (Sample.env_down 1) 1 (_mast_ffi_query Sample.env 1 Sample.fresh).2
  = (Return (Sample.obs 1), (_mast_ffi_query Sample.env 1 Sample.fresh).2).
Proof.
  apply (mast_ffi_query_cached Sample.env (Sample.env_down 1) 1 Sample.fresh).
  reflexivity.
Defined.

(** X9: a query that raised is not cached: the next call for the sector sends
    the job again. *)
Theorem mast_ffi_query_failure_not_cached env env2 sector w e w1 :
  _mast_ffi_query env sector w = (Raise e, w1) →
  mast_cache w1 = mast_cache w
  ∧ tap_jobs (_mast_ffi_query env2 sector w1).2 = tap_jobs w ++ [sector; sector].
Proof.
  unfold _mast_ffi_query at 1.
  destruct (Lru.find sector (mast_cache w)) as [tbl'|] eqn:Hfind; [done|].
  destruct (tap_service env sector) as [tbl'|e']; [done|]. intros [= <- <-].
  split; [done|]. unfold _mast_ffi_query. simpl. rewrite Hfind.
  destruct (tap_service env2 sector); simpl; by rewrite <-app_assoc.
Qed.

Lemma mast_ffi_query_failure_not_cached_witness :
  mast_cache (_mast_ffi_query (Sample.env_down 1) 1 Sample.fresh).2
  = mast_cache Sample.fresh
  ∧ tap_jobs (_mast_ffi_query Sample.env 1
                (_mast_ffi_query (Sample.env_down 1) 1 Sample.fresh).2).2
    = tap_jobs Sample.fresh ++ [1; 1].
Proof.
  apply (mast_ffi_query_failure_not_cached (Sample.env_down 1) Sample.env 1
           Sample.fresh (UpstreamError "timeout")).
  reflexivity.
Defined.

(** ** The paths *)

Lemma string_length_app (s t : string) :
  String.length (s +:+ t) = (String.length s + String.length t)%nat.
Proof. induction s as [|c s IH]; simpl; [done|]. by rewrite IH. Qed.

Lemma string_app_inj_r (s1 s2 t : string) : s1 +:+ t = s2 +:+ t → s1 = s2.
Proof.
  intros Heq.
  assert (String.length s1 = String.length s2) as Hlen.
  { apply (f_equal String.length) in Heq. rewrite !string_length_app in Heq. lia. }
  revert s2 Heq Hlen. induction s1 as [|c s1 IH]; intros [|c2 s2] Heq Hlen; try done.
  simpl in *. injection Heq as -> Heq. f_equal. apply IH; [done|lia].
Qed.

(** The decimal notation of a number has no leading zero, but for 0. *)
Lemma pretty_N_go_head (x : N) (s : string) :
  (0 < x)%N → ∃ c r, pretty_N_go x s = String c r ∧ c ≠ "0"%char.
Proof.
  revert s. induction (N.lt_wf_0 x) as [x _ IH]; intros s Hx.
  rewrite pretty_N_go_step by done.
  destruct (decide (x `div` 10 = 0)%N) as [Hdiv|Hdiv].
  - rewrite Hdiv, pretty_N_go_0. eexists _, _. split; [done|].
    assert (x `mod` 10 = x)%N as Hmod by (apply N.mod_small, N.div_small_iff; [done|lia]).
    assert (x < 10)%N by (apply N.div_small_iff; [done|lia]).
    rewrite Hmod.
    assert (x = 1 ∨ x = 2 ∨ x = 3 ∨ x = 4 ∨ x = 5 ∨ x = 6 ∨ x = 7 ∨ x = 8 ∨ x = 9)%N
      as Hcases by lia.
    repeat (destruct Hcases as [->|Hcases]; [done|]). by subst x.
  - apply IH; [apply N.div_lt; lia|by apply N.neq_0_lt_0].
Qed.

Lemma pretty_N_head (x : N) :
  pretty x = "0" ∨ ∃ c r, pretty x = String c r ∧ c ≠ "0"%char.
Proof.
  unfold pretty, pretty_N. case_decide; [by left|right].
  apply pretty_N_go_head. lia.
Qed.

Lemma strip_zeros_pad (n : nat) (p : string) :
  p = "0" ∨ (∃ c r, p = String c r ∧ c ≠ "0"%char) →
  strip_zeros (string_of_list_ascii (replicate n "0"%char) +:+ p) = p.
Proof.
  intros Hp. induction n as [|n IH]; simpl.
  - destruct Hp as [->|(c & r & -> & Hc)]; [done|]. simpl.
    destruct r; [done|]. by apply Ascii.eqb_neq in Hc as ->.
  - destruct (string_of_list_ascii (replicate n "0"%char) +:+ p) as [|c r] eqn:Happ.
    + destruct n; simpl in Happ; [|done].
      destruct Hp as [->|(c & r & -> & _)]; done.
    + by rewrite <-IH.
Qed.

Lemma zero_pad_inj (width : nat) (p q : string) :
  p = "0" ∨ (∃ c r, p = String c r ∧ c ≠ "0"%char) →
  q = "0" ∨ (∃ c r, q = String c r ∧ c ≠ "0"%char) →
  zero_pad width p = zero_pad width q → p = q.
Proof.
  intros Hp Hq Heq. apply (f_equal strip_zeros) in Heq.
  unfold zero_pad in Heq. by rewrite !strip_zeros_pad in Heq.
Qed.

Lemma zero_pad_no_dash (width : nat) (p s : string) :
  (∀ s', p ≠ "-" +:+ s') → zero_pad width p ≠ "-" +:+ s.
Proof.
  intros Hp. unfold zero_pad. destruct (width - String.length p)%nat; simpl; [apply Hp|done].
Qed.

Lemma pretty_nonneg_head (z : Z) :
  0 ≤ z →
  (pretty z = "0" ∨ ∃ c r, pretty z = String c r ∧ c ≠ "0"%char)
  ∧ ∀ s, pretty z ≠ "-" +:+ s.
Proof.
  intros Hz. destruct z as [|p|p]; [split; [by left|done]| |lia].
  change (pretty (Z.pos p)) with (pretty (N.pos p)). split; [apply pretty_N_head|].
  intros s. unfold pretty, pretty_N. case_decide; [done|].
  by apply pretty_N_go_ne_dash.
Qed.

Lemma format_04d_inj (z1 z2 : Z) : format_04d z1 = format_04d z2 → z1 = z2.
Proof.
  unfold format_04d. repeat case_decide.
  - intros [= Heq]. apply zero_pad_inj in Heq; [|apply pretty_nonneg_head; lia..].
    apply (inj pretty) in Heq. lia.
  - intros Heq. symmetry in Heq. by apply zero_pad_no_dash in Heq; [|apply pretty_nonneg_head; lia].
  - intros Heq. by apply zero_pad_no_dash in Heq; [|apply pretty_nonneg_head; lia].
  - intros Heq. apply zero_pad_inj in Heq; [|apply pretty_nonneg_head; lia..].
    by apply (inj pretty) in Heq.
Qed.

Lemma ffi_catalog_path_eq env (sector1 sector2 : Z) :
  _ffi_catalog_path env sector1 = _ffi_catalog_path env sector2 → sector1 = sector2.
Proof.
  unfold _ffi_catalog_path, path_join. intros Heq.
  do 3 apply (inj (String.app _)) in Heq.
  by apply string_app_inj_r, format_04d_inj in Heq.
Qed.

(** X10: different sectors have different listing files, and no listing file is
    the file of the WCS catalog. *)
Theorem ffi_catalog_path_inj env (sector1 sector2 : Z) :
  (_ffi_catalog_path env sector1 = _ffi_catalog_path env sector2 ↔ sector1 = sector2)
  ∧ _ffi_catalog_path env sector1 ≠ WCS_CATALOG env.
Proof.
  split; [split; [apply ffi_catalog_path_eq|by intros ->]|].
  unfold _ffi_catalog_path, WCS_CATALOG, path_join.
  intros Heq. do 2 apply (inj (String.app _)) in Heq. discriminate Heq.
Qed.

(** The widths of the sector number in the file name. *)
Example format_04d_sample :
  format_04d 7 = "0007" ∧ format_04d 1234 = "1234" ∧ format_04d 12345 = "12345"
  ∧ format_04d 0 = "0000" ∧ format_04d (-5) = "-005".
Proof. repeat split. Qed.

Lemma fetch_step_other_paths env sector w r w' path :
  fetch_step env sector w = (r, w') → path ≠ _ffi_catalog_path env sector →
  disk w' !! path = disk w !! path.
Proof.
  unfold fetch_step, mbind, Py_bind, log_info. intros Hrun Hpath.
  destruct (fetch_ffi_catalog env sector None _) as [[o|e] w1] eqn:Hfetch;
    injection Hrun as <- <-;
    apply fetch_ffi_catalog_inv in Hfetch
      as [(_ & _ & ->)|[(_ & e' & _ & Hq)|(_ & df & w2 & _ & Hq & ->)]]; simpl in *;
    try done; apply keeps_disk_query in Hq; unfold logged in Hq; simpl in Hq;
    rewrite ?lookup_insert_ne by done; by rewrite Hq.
Qed.

Lemma for_each_own_listing env l w w' k :
  for_each l (fetch_step env) w = (Return tt, w') →
  k ∈ l → disk w !! _ffi_catalog_path env k = None →
  ∃ df v v', disk w' !! _ffi_catalog_path env k = Some (ListingFile df)
             ∧ _query_ffi_catalog env k v = (Return df, v').
Proof.
  revert w. induction l as [|x l IH]; intros w Hrun Hk Hnone; [by apply elem_of_nil in Hk|].
  simpl in Hrun. unfold mbind, Py_bind in Hrun.
  destruct (fetch_step env x w) as [[[]|e] w1] eqn:Hx; [|done].
  destruct (decide (x = k)) as [->|Hne].
  - clear IH Hk. pose proof Hx as Hstep.
    unfold fetch_step, mbind, Py_bind, log_info in Hx.
    destruct (fetch_ffi_catalog env k None _) as [[o|e] w2] eqn:Hfetch; [|done].
    injection Hx as <-.
    apply fetch_ffi_catalog_inv in Hfetch
      as [([f Hf] & _ & _)|[(_ & e' & [=] & _)|(_ & df & w3 & _ & Hq & ->)]]; simpl in *.
    + by rewrite Hf in Hnone.
    + exists df. eexists _, _. split; [|done].
      apply (keeps_files_for_each (fetch_step env) l (keeps_files_fetch_step env) _ _ _ Hrun).
      simpl. apply lookup_insert_eq.
  - apply elem_of_cons in Hk as [->|Hk]; [done|]. apply (IH w1); [done..|].
    rewrite (fetch_step_other_paths _ _ _ _ _ _ Hx); [done|].
    intros Heq. by apply ffi_catalog_path_eq in Heq.
Qed.



(** ** The rows of a listing *)

Lemma no_slash_nil : no_slash "".
Proof. unfold no_slash. simpl. apply not_elem_of_nil. Qed.

Lemma no_slash_cons c s : no_slash (String c s) ↔ c ≠ "/"%char ∧ no_slash s.
Proof.
  unfold no_slash. simpl. rewrite not_elem_of_cons.
  split; intros [Hc Hs]; (split; [congruence|done]).
Qed.

Lemma existsb_no_slash s :
  existsb (Ascii.eqb "/"%char) (list_ascii_of_string s) = false ↔ no_slash s.
Proof.
  induction s as [|c s IH]; cbn [existsb list_ascii_of_string].
  - split; [intros _; apply no_slash_nil|done].
  - rewrite orb_false_iff, IH, no_slash_cons, Ascii.eqb_neq.
    split; intros [Hc Hs]; (split; [congruence|done]).
Qed.

Lemma last_segment_no_slash (s : string) : no_slash (last_segment s).
Proof.
  induction s as [|c s IH]; cbn [last_segment]; [apply no_slash_nil|].
  destruct (existsb _ _) eqn:Hs; [done|]. apply existsb_no_slash in Hs.
  destruct (Ascii.eqb c "/") eqn:Hc; [done|].
  apply Ascii.eqb_neq in Hc. by apply no_slash_cons.
Qed.

(** X12: [last_segment] is what follows the last slash: it has no slash; a
    string without slash is its own last segment; any other string is a
    prefix, a slash and the last segment. *)
Theorem last_segment_spec (s : string) :
  no_slash (last_segment s)
  ∧ (no_slash s → last_segment s = s)
  ∧ (¬ no_slash s → ∃ pre, s = pre +:+ "/" +:+ last_segment s).
Proof.
  split; [apply last_segment_no_slash|].
  induction s as [|c s (IH2 & IH3)]; cbn [last_segment].
  - split; [done|]. intros H. destruct H. apply no_slash_nil.
  - destruct (existsb _ _) eqn:Hs.
    + assert (¬ no_slash s) as Hslash.
      { intros H%existsb_no_slash. congruence. }
      split.
      * by intros [_ ?]%no_slash_cons.
      * intros _. destruct (IH3 Hslash) as [pre Hpre]. exists (String c pre).
        rewrite Hpre at 1. reflexivity.
    + apply existsb_no_slash in Hs. destruct (Ascii.eqb c "/") eqn:Hc.
      * apply Ascii.eqb_eq in Hc as ->. split.
        -- by intros [? _]%no_slash_cons.
        -- intros _. by exists "".
      * apply Ascii.eqb_neq in Hc. split; [done|].
        intros H. destruct H. by apply no_slash_cons.
Qed.

Lemma last_segment_spec_witness :
  last_segment "readme.txt" = "readme.txt"
  ∧ ∃ pre, "https://archive/ffi/a.fits" = pre +:+ "/" +:+ last_segment "https://archive/ffi/a.fits".
Proof.
  split.
  - apply (proj1 (proj2 (last_segment_spec "readme.txt"))).
    apply (bool_decide_unpack _). by vm_compute.
  - apply (proj2 (proj2 (last_segment_spec "https://archive/ffi/a.fits"))).
    apply (bool_decide_unpack _). by vm_compute.
Defined.

Example last_segment_sample :
  last_segment "https://archive/ffi/tess2018206192942-s0001-1-1-0120-s_ffic.fits"
  = "tess2018206192942-s0001-1-1-0120-s_ffic.fits"
  ∧ last_segment "https://archive/ffi/" = "".
Proof. split; reflexivity. Qed.

Lemma str_slice_stop_length n s : (String.length (str_slice_stop n s) ≤ n)%nat.
Proof.
  unfold str_slice_stop. revert s. induction n as [|n IH]; intros [|c s]; simpl; try lia.
  specialize (IH s). lia.
Qed.

Lemma result_mapM_length {A B} (f : A → result B) l ys :
  result_mapM f l = Return ys → length ys = length l.
Proof. intros H%result_mapM_Return. symmetry. by eapply Forall2_length. Qed.

(** The frame assembled from the columns has the row of every record. *)
Lemma frame_rows env (tbl : list Obs.t) (sc cc dc : list Z) :
  let filename := (λ o, last_segment (Obs.access_url o)) <$> tbl in
  result_mapM (extract_int env ".*-s(\d+)-.*") filename = Return sc →
  result_mapM (extract_int env ".*-s\d+-(\d)-.*") filename = Return cc →
  result_mapM (extract_int env ".*-s\d+-\d-(\d)-.*") filename = Return dc →
  Forall2 (row_of_obs env) tbl
    (zip_with (λ '(f, s, c) '(d, a, b), FfiRow.mk f s c d a b)
       (zip (zip filename sc) cc)
       (zip (zip dc ((λ o, str_slice_stop 19 (mjd_iso env (Obs.t_min o))) <$> tbl))
          ((λ o, str_slice_stop 19 (mjd_iso env (Obs.t_max o))) <$> tbl))).
Proof.
  simpl. revert sc cc dc. induction tbl as [|o tbl IH]; intros sc cc dc; simpl.
  - intros [= <-] [= <-] [= <-]. constructor.
  - destruct (extract_int env ".*-s(\d+)-.*" _) as [s|] eqn:Hs; [|done].
    destruct (result_mapM (extract_int env ".*-s(\d+)-.*") _) as [sc'|] eqn:Hsc; [|done].
    intros [= <-].
    destruct (extract_int env ".*-s\d+-(\d)-.*" _) as [c|] eqn:Hc; [|done].
    destruct (result_mapM (extract_int env ".*-s\d+-(\d)-.*") _) as [cc'|] eqn:Hcc; [|done].
    intros [= <-].
    destruct (extract_int env ".*-s\d+-\d-(\d)-.*" _) as [d|] eqn:Hd; [|done].
    destruct (result_mapM (extract_int env ".*-s\d+-\d-(\d)-.*") _) as [dc'|] eqn:Hdc; [|done].
    intros [= <-]. simpl. constructor; [|by apply IH].
    by split_and!.
Qed.

Lemma lift_inv {A} (r : result A) w a w' : lift r w = (Return a, w') → r = Return a ∧ w' = w.
Proof. by intros [= -> ->]. Qed.

(** X13: a listing that [_query_ffi_catalog] returns is a rearrangement of the
    rows of the records in the sector's table, one row per record; the file
    names have no slash and the timestamps at most 19 characters. *)
Theorem query_ffi_catalog_rows env sector w df w' :
  _query_ffi_catalog env sector w = (Return df, w') →
  ∃ tbl rows,
    _mast_ffi_query env sector w = (Return tbl, w')
    ∧ Forall2 (row_of_obs env) tbl rows
    ∧ df ≡ₚ rows
    ∧ length df = length tbl
    ∧ Forall (λ r, no_slash (FfiRow.filename r)
                   ∧ (String.length (FfiRow.start r) ≤ 19)%nat
                   ∧ (String.length (FfiRow.stop r) ≤ 19)%nat) df.
Proof.
  unfold _query_ffi_catalog. intros Hrun.
  apply Py_bind_inv in Hrun as (tbl & w1 & Hmast & Hrun).
  apply Py_bind_inv in Hrun as (sc & w2 & [Hsc ->]%lift_inv & Hrun).
  apply Py_bind_inv in Hrun as (cc & w3 & [Hcc ->]%lift_inv & Hrun).
  apply Py_bind_inv in Hrun as (dc & w4 & [Hdc ->]%lift_inv & Hrun).
  injection Hrun as <- <-.
  pose proof (frame_rows env tbl sc cc dc Hsc Hcc Hdc) as Hrows.
  eexists tbl, _. split_and!; [done|exact Hrows|apply merge_sort_Permutation| |].
  - unfold sort_values_filename. rewrite merge_sort_Permutation.
    symmetry. by eapply Forall2_length.
  - unfold sort_values_filename. rewrite merge_sort_Permutation.
    eapply Forall2_Forall_r; [exact Hrows|]. apply Forall_forall.
    intros o _ r (Hname & _ & _ & _ & Hstart & Hstop).
    rewrite Hname, Hstart, Hstop. split_and!.
    + apply last_segment_no_slash.
    + apply str_slice_stop_length.
    + apply str_slice_stop_length.
Qed.

Lemma query_ffi_catalog_rows_witness :
  ∃ tbl rows,
    _mast_ffi_query Sample.env 1 Sample.fresh
    = (Return tbl, (_query_ffi_catalog Sample.env 1 Sample.fresh).2)
    ∧ Forall2 (row_of_obs Sample.env) tbl rows
    ∧ returned [] (_query_ffi_catalog Sample.env 1 Sample.fresh).1 ≡ₚ rows
    ∧ length (returned [] (_query_ffi_catalog Sample.env 1 Sample.fresh).1) = length tbl
    ∧ Forall (λ r, no_slash (FfiRow.filename r)
                   ∧ (String.length (FfiRow.start r) ≤ 19)%nat
                   ∧ (String.length (FfiRow.stop r) ≤ 19)%nat)
        (returned [] (_query_ffi_catalog Sample.env 1 Sample.fresh).1).
Proof.
  apply (query_ffi_catalog_rows Sample.env 1 Sample.fresh).
  vm_compute. reflexivity.
Defined.

Lemma result_mapM_extract_Raise env pat l e :
  result_mapM (extract_int env pat) l = Raise e → e = ValueError.
Proof.
  induction l as [|x l IH]; simpl; [done|]. unfold extract_int at 1.
  destruct (str_extract env pat x ≫= int_of_str env); [|by intros [= <-]].
  destruct (result_mapM _ l); [done|]. intros [= <-]. by apply IH.
Qed.

Lemma result_mapM_extract_bad env pat l x :
  x ∈ l → str_extract env pat x ≫= int_of_str env = None →
  result_mapM (extract_int env pat) l = Raise ValueError.
Proof.
  intros Hx Hbad. induction l as [|y l IH]; [by apply elem_of_nil in Hx|]. simpl.
  destruct (extract_int env pat y) as [z|e] eqn:Hy.
  - apply elem_of_cons in Hx as [->|Hx].
    + unfold extract_int in Hy. by rewrite Hbad in Hy.
    + by rewrite IH.
  - unfold extract_int in Hy.
    destruct (str_extract env pat y ≫= int_of_str env); [done|]. by injection Hy as <-.
Qed.

(** X14: when one of the three patterns finds no number in the file name of a
    record, [_query_ffi_catalog] raises [ValueError] and returns no rows;
    the table stays in the cache of [_mast_ffi_query]. *)
Theorem query_ffi_catalog_bad_name env sector w tbl w1 o pat :
  _mast_ffi_query env sector w = (Return tbl, w1) →
  o ∈ tbl →
  pat ∈ [".*-s(\d+)-.*"; ".*-s\d+-(\d)-.*"; ".*-s\d+-\d-(\d)-.*"] →
  str_extract env pat (last_segment (Obs.access_url o)) ≫= int_of_str env = None →
  _query_ffi_catalog env sector w = (Raise ValueError, w1).
Proof.
  intros Hmast Ho Hpat Hbad.
  assert (last_segment (Obs.access_url o)
          ∈ (λ o, last_segment (Obs.access_url o)) <$> tbl) as Hname.
  { by apply (list_elem_of_fmap_2 (λ o, last_segment (Obs.access_url o))). }
  pose proof (result_mapM_extract_bad env pat _ _ Hname Hbad) as Hfail.
  unfold _query_ffi_catalog, mbind, Py_bind, lift. rewrite Hmast.
  destruct (result_mapM (extract_int env ".*-s(\d+)-.*") _) as [sc|e1] eqn:H1;
    [|by apply result_mapM_extract_Raise in H1 as ->].
  destruct (result_mapM (extract_int env ".*-s\d+-(\d)-.*") _) as [cc|e2] eqn:H2;
    [|by apply result_mapM_extract_Raise in H2 as ->].
  destruct (result_mapM (extract_int env ".*-s\d+-\d-(\d)-.*") _) as [dc|e3] eqn:H3;
    [|by apply result_mapM_extract_Raise in H3 as ->].
  repeat (apply elem_of_cons in Hpat as [->|Hpat]; [congruence|]).
  by apply elem_of_nil in Hpat.
Qed.

Lemma query_ffi_catalog_bad_name_witness :
  _query_ffi_catalog Sample2.env_odd_name 1 Sample.fresh
  = (Raise ValueError, (_mast_ffi_query Sample2.env_odd_name 1 Sample.fresh).2).
Proof.
  apply (query_ffi_catalog_bad_name Sample2.env_odd_name 1 Sample.fresh
           (Sample.obs 1 ++ [Obs.mk "https://archive/ffi/readme.txt" 58324 58324.25])
           _ (Obs.mk "https://archive/ffi/readme.txt" 58324 58324.25) ".*-s(\d+)-.*").
  - reflexivity.
  - apply elem_of_app. right. by left.
  - by left.
  - reflexivity.
Defined.

(** ** The loaders *)

Lemma memo_py_second {K V} `{EqDecision K} (n : nat) (f g : K → Py V) (k : K)
    (c c' : Lru.t K V) (v : V) w w' w2 :
  (1 ≤ n)%nat →
  memo_py n f k c w = (Return v, c', w') →
  memo_py n g k c' w2 = (Return v, c', w2).
Proof.
  intros Hn.
  assert (∀ rest, k ∉ rest.*1 →
            memo_py n g k ((k, v) :: rest) w2 = (Return v, (k, v) :: rest, w2)) as Hfront.
  { intros rest Hrest. unfold memo_py. rewrite find_front.
    unfold Lru.touch, Lru.remove, Lru.t.
    rewrite filter_cons_False by (simpl; by intros ?).
    do 3 f_equal. by apply remove_id. }
  unfold memo_py at 1. destruct (Lru.find k c) as [v'|] eqn:Hfind.
  - intros [= -> <- _]. apply Hfront, remove_fresh.
  - destruct (f k w) as [[v'|e] w1]; [|done]. intros [= -> <- _].
    unfold Lru.store. destruct n as [|n]; [lia|]. simpl.
    apply Hfront, take_fresh, remove_fresh.
Qed.

(** X15: once [load_ffi_catalog] has returned a sector's frame, every later call
    for the sector returns that frame from the cache: the file is not read
    again, whatever has become of it, and nothing is logged. *)
Theorem load_ffi_catalog_cached env env2 sector c w f c' w' w2 :
  load_ffi_catalog env sector c w = (Return f, c', w') →
  load_ffi_catalog env2 sector c' w2 = (Return f, c', w2).
Proof. unfold load_ffi_catalog. apply memo_py_second. lia. Qed.

Lemma load_ffi_catalog_cached_witness :
  load_ffi_catalog Sample.env 1 (load_ffi_catalog Sample.env 1 [] Sample.used).1.2 Sample.fresh
  = (Return (ListingFile Sample.listing1),
     (load_ffi_catalog Sample.env 1 [] Sample.used).1.2, Sample.fresh).
Proof.
  apply (load_ffi_catalog_cached Sample.env Sample.env 1 [] Sample.used
           (ListingFile Sample.listing1) _
           (load_ffi_catalog Sample.env 1 [] Sample.used).2).
  vm_compute. reflexivity.
Defined.

(** X16: a load of a sector whose file is missing raises and stores nothing; once
    a fetch has written the file, a load with the same cache returns the
    rows the fetch returned. *)
Theorem load_ffi_catalog_after_fetch env sector c w df w' :
  Lru.find sector c = None →
  fetch_ffi_catalog env sector None w = (Return (Some df), w') →
  load_ffi_catalog env sector c w
  = (Raise (UpstreamError "FileNotFoundError"), c,
     logged ("Reading " +:+ _ffi_catalog_path env sector) w)
  ∧ (load_ffi_catalog env sector c w').1.1 = Return (ListingFile df).
Proof.
  intros Hfind Hfetch.
  apply fetch_ffi_catalog_inv in Hfetch
    as [(_ & [=] & _)|[(_ & e' & [=] & _)|(Hnone & df' & w1 & [= <-] & _ & ->)]].
  simpl in Hnone. split.
  - unfold load_ffi_catalog, memo_py, read_parquet, mbind, Py_bind, log_info.
    rewrite Hfind. simpl. by rewrite Hnone.
  - unfold load_ffi_catalog, memo_py, read_parquet, mbind, Py_bind, log_info.
    rewrite Hfind. simpl. by rewrite lookup_insert_eq.
Qed.

Lemma load_ffi_catalog_after_fetch_witness :
  load_ffi_catalog Sample.env 2 [] Sample.fresh
  = (Raise (UpstreamError "FileNotFoundError"), [],
     logged ("Reading " +:+ _ffi_catalog_path Sample.env 2) Sample.fresh)
  ∧ (load_ffi_catalog Sample.env 2 []
       (fetch_ffi_catalog Sample.env 2 None Sample.fresh).2).1.1
    = Return (ListingFile
        (returned [] (_query_ffi_catalog Sample.env 2 Sample.fresh).1)).
Proof.
  apply (load_ffi_catalog_after_fetch Sample.env 2 [] Sample.fresh).
  - reflexivity.
  - vm_compute. reflexivity.
Defined.



(** ** Building the WCS catalog and looking it up *)

Lemma query_unique rows r :
  NoDup (WcsRow.key <$> rows) → r ∈ rows →
  query rows (WcsRow.sector r) (WcsRow.camera r) (WcsRow.ccd r) = [r].
Proof.
  unfold query. induction rows as [|y rows IH]; intros Hnd Hr; [by apply elem_of_nil in Hr|].
  rewrite fmap_cons in Hnd. apply NoDup_cons in Hnd as [Hy Hnd].
  apply elem_of_cons in Hr as [->|Hr].
  - rewrite filter_cons_True by done. f_equal.
    apply filter_none. intros z Hz (Hs & Hc & Hd). apply Hy.
    replace (WcsRow.key y) with (WcsRow.key z); [by apply list_elem_of_fmap_2|].
    unfold WcsRow.key. by rewrite Hs, Hc, Hd.
  - rewrite filter_cons_False; [by apply IH|].
    intros (Hs & Hc & Hd). apply Hy.
    replace (WcsRow.key y) with (WcsRow.key r); [by apply list_elem_of_fmap_2|].
    unfold WcsRow.key. by rewrite Hs, Hc, Hd.
Qed.



(** In the sample the lookup of (2, 3, 4) gets the header of image [b2], and
    sector 3 is not in the catalog. *)
Example get_wcs_sample :
  get_wcs Sample.env Sample2.catalog12 2 3 4 = Return (Wcs.mk "WCSAXES = 2 / b2")
  ∧ get_wcs Sample.env Sample2.catalog12 3 1 1 = Raise IndexError
  ∧ get_wcs Sample.env Sample2.catalog12 1 5 1 = Raise IndexError.
Proof. split_and!; reflexivity. Qed.

Lemma result_mapM_app_Raise {A B} (f : A → result B) before k after e :
  (∀ x, x ∈ before → ∃ y, f x = Return y) → f k = Raise e →
  result_mapM f (before ++ k :: after) = Raise e.
Proof.
  intros Hbefore Hk. induction before as [|x before IH]; simpl.
  - by rewrite Hk.
  - destruct (Hbefore x) as [y ->]; [by left|].
    rewrite IH; [done|]. intros z Hz. apply Hbefore. by right.
Qed.

Lemma row_fails_wcs_row env k e : row_fails env k e → wcs_row env k = Raise e.
Proof.
  destruct k as [[s c] d]. unfold row_fails, wcs_row, mbind, result_mbind. simpl.
  intros [->|[[-> ->]|(images & mid & -> & Hmid & Hwcs)]]; simpl; [done..|].
  unfold py_index. rewrite Hmid. simpl. by rewrite Hwcs.
Qed.





(** ** The lookup of a time in the derived index *)

Lemma is_min_unique b b' l : is_min b l → is_min b' l → b = b'.
Proof. intros [Hb Hle] [Hb' Hle']. apply String.leb_antisym; [by apply Hle|by apply Hle']. Qed.

Lemma is_max_unique e e' l : is_max e l → is_max e' l → e = e'.
Proof. intros [He Hle] [He' Hle']. apply String.leb_antisym; [by apply Hle'|by apply Hle]. Qed.

(** On the rows of the derived index, containing the time is the same as
    the coverage of the row's sector containing it. *)
Lemma covers_sector_covers db row time :
  row ∈ get_sector_dates db →
  covers time row ↔ sector_covers db (DateRow.Index row) time.
Proof.
  intros (_ & Hmin & e & He & Hmax)%elem_of_get_sector_dates. split.
  - intros (Hb & e' & He' & Hle). rewrite He in He'. injection He' as <-.
    by exists (DateRow.begin row), e.
  - intros (b & e' & Hmin' & Hmax' & Hb & Hle).
    pose proof (is_min_unique _ _ _ Hmin Hmin') as Hbeq.
    pose proof (is_max_unique _ _ _ Hmax Hmax') as Heeq. subst b e'.
    split; [done|]. by exists e.
Qed.

Lemma sector_covers_row db s time :
  sector_covers db s time →
  ∃ row, row ∈ get_sector_dates db ∧ DateRow.Index row = s ∧ covers time row.
Proof.
  intros Hcov. pose proof Hcov as (b & e & [Hb _] & _).
  assert (s ∈ DateRow.Index <$> get_sector_dates db) as Hs.
  { rewrite get_sector_dates_keys. apply elem_of_group_keys.
    apply list_elem_of_fmap in Hb as (r & _ & [Hr Hin]%list_elem_of_filter).
    rewrite <-Hr. by apply list_elem_of_fmap_2. }
  apply list_elem_of_fmap in Hs as (row & -> & Hrow).
  exists row. split_and!; [done..|]. by apply (proj2 (covers_sector_covers db row time Hrow)).
Qed.

(** What the scan of a complete index returns. *)
Lemma scan_dates_Return dates time :
  Forall (λ row, is_Some (DateRow.end_ row)) dates →
  (∃ before row after,
     dates = before ++ row :: after
     ∧ (∀ r, r ∈ before → ¬ covers time r) ∧ covers time row
     ∧ scan_dates dates time = Return (Some (DateRow.Index row)))
  ∨ ((∀ r, r ∈ dates → ¬ covers time r) ∧ scan_dates dates time = Return None).
Proof.
  induction 1 as [|row dates Hrow Hends IH]; simpl.
  - right. split; [|done]. by intros r ?%elem_of_nil.
  - destruct (in_interval time row) as [[|]|e] eqn:Hin.
    + left. exists [], row, dates. split_and!; [done| |by apply in_interval_true|done].
      by intros r ?%elem_of_nil.
    + assert (¬ covers time row) as Hno.
      { intros Hc%in_interval_true. congruence. }
      destruct IH as [(before & row' & after & -> & Hbefore & Hcov & Hscan)|[Hnone Hscan]].
      * left. exists (row :: before), row', after. split_and!; [done| |done..].
        intros r [->|Hr]%elem_of_cons; [done|by apply Hbefore].
      * right. split; [|done].
        intros r [->|Hr]%elem_of_cons; [done|by apply Hnone].
    + destruct Hrow as [e' He']. unfold in_interval in Hin. by rewrite He' in Hin.
Qed.

(** X21: on the index derived from a catalog, [time_to_sector] never raises. It
    returns the least sector number whose coverage, from the least begin to
    the greatest end of the sector's rows, contains the time, and [None]
    exactly when no sector's coverage contains it. *)
Theorem time_to_sector_least_sector db time :
  (∃ found, time_to_sector (get_sector_dates db) time = Return found)
  ∧ (∀ s, time_to_sector (get_sector_dates db) time = Return (Some s)
          ↔ sector_covers db s (as_str time)
            ∧ ∀ s', sector_covers db s' (as_str time) → s ≤ s')
  ∧ (time_to_sector (get_sector_dates db) time = Return None
     ↔ ∀ s, ¬ sector_covers db s (as_str time)).
Proof.
  unfold time_to_sector. set (t := as_str time).
  pose proof (get_sector_dates_complete db) as Hends.
  assert (StronglySorted Z.lt (DateRow.Index <$> get_sector_dates db)) as Hsorted.
  { rewrite get_sector_dates_keys. apply StronglySorted_group_keys. }
  destruct (scan_dates_Return _ t Hends)
    as [(before & row & after & Hdates & Hbefore & Hcov & Hscan)|[Hnone Hscan]].
  - assert (row ∈ get_sector_dates db) as Hrow.
    { rewrite Hdates. apply elem_of_app. right. by left. }
    assert (sector_covers db (DateRow.Index row) t) as Hsec.
    { by apply (proj1 (covers_sector_covers db row t Hrow)). }
    assert (∀ s', sector_covers db s' t → DateRow.Index row ≤ s') as Hleast.
    { intros s' (row' & Hrow' & <- & Hcov')%sector_covers_row.
      rewrite Hdates in Hrow', Hsorted.
      apply elem_of_app in Hrow' as [Hin|[->|Hin]%elem_of_cons]; [by destruct (Hbefore row')|lia|].
      rewrite fmap_app, fmap_cons in Hsorted.
      apply StronglySorted_app_1_r, StronglySorted_cons in Hsorted as [Hall _].
      apply (list_elem_of_fmap_2 DateRow.Index) in Hin.
      eapply Forall_forall in Hall; [|done]. lia. }
    rewrite Hscan. split_and!; [by eexists| |].
    + intros s. split.
      * by intros [= <-].
      * intros [Hs Hs']. f_equal. f_equal.
        pose proof (Hleast s Hs). pose proof (Hs' _ Hsec). lia.
    + split; [done|]. intros Hno. by destruct (Hno _ Hsec).
  - rewrite Hscan. split_and!; [by eexists| |].
    + intros s. split; [done|].
      intros [(row & Hrow & _ & Hcov)%sector_covers_row _]. by destruct (Hnone row).
    + split; [|done]. intros _ s (row & Hrow & _ & Hcov)%sector_covers_row.
      by destruct (Hnone row).
Qed.

(** Two sectors whose coverages overlap: the time in the overlap is of the
    lower sector, whatever the order of the rows. *)
Example time_to_sector_overlap :
  time_to_sector
    (get_sector_dates
       [ WcsRow.mk 9 1 1 "2018-08-20 00:00:00" "2018-09-20 00:00:00" "h";
         WcsRow.mk 4 1 1 "2018-07-25 00:00:00" "2018-08-22 00:00:00" "h" ])
    (StrArg "2018-08-21 00:00:00")
  = Return (Some 4).
Proof. reflexivity. Qed.

(** ** The index and the order of the catalog rows *)

Lemma is_min_Permutation m l l' : l ≡ₚ l' → is_min m l → is_min m l'.
Proof.
  intros Hperm [Hin Hle]. split; [by rewrite <-Hperm|].
  intros x Hx. apply Hle. by rewrite Hperm.
Qed.

Lemma is_max_Permutation m l l' : l ≡ₚ l' → is_max m l → is_max m l'.
Proof.
  intros Hperm [Hin Hle]. split; [by rewrite <-Hperm|].
  intros x Hx. apply Hle. by rewrite Hperm.
Qed.

Lemma group_keys_Permutation db1 db2 : db1 ≡ₚ db2 → group_keys db1 = group_keys db2.
Proof.
  intros Hperm. unfold group_keys.
  apply (Sorted_unique Z.le).
  - apply Sorted_merge_sort, _.
  - apply Sorted_merge_sort, _.
  - rewrite !merge_sort_Permutation.
    apply NoDup_Permutation; [apply NoDup_remove_dups..|].
    intros s. rewrite !elem_of_remove_dups. by rewrite Hperm.
Qed.

Lemma list_eq_by_key {A} (f : A → Z) (P : A → Prop) (l1 l2 : list A) :
  f <$> l1 = f <$> l2 → Forall P l1 → Forall P l2 →
  (∀ x y, P x → P y → f x = f y → x = y) → l1 = l2.
Proof.
  intros Hkeys H1 H2 Huniq. revert l2 Hkeys H2.
  induction H1 as [|x l1 Hx _ IH]; intros [|y l2] Hkeys H2; try done.
  rewrite !fmap_cons in Hkeys. injection Hkeys as Hxy Hkeys.
  apply Forall_cons in H2 as [Hy H2]. f_equal; [by apply Huniq|by apply IH].
Qed.

(** X22: the index does not depend on the order of the rows of the catalog. *)
Theorem get_sector_dates_Permutation db1 db2 :
  db1 ≡ₚ db2 → get_sector_dates db1 = get_sector_dates db2.
Proof.
  intros Hperm.
  set (P := λ row : DateRow.t,
         is_min (DateRow.begin row) (WcsRow.begin <$> sector_rows (DateRow.Index row) db1)
         ∧ ∃ e, DateRow.end_ row = Some e
                ∧ is_max e (WcsRow.end_ <$> sector_rows (DateRow.Index row) db1)).
  apply (list_eq_by_key DateRow.Index P).
  - rewrite !get_sector_dates_keys. by apply group_keys_Permutation.
  - apply Forall_forall. intros row Hrow.
    by apply elem_of_get_sector_dates in Hrow as (_ & Hmin & Hmax).
  - apply Forall_forall. intros row Hrow.
    apply elem_of_get_sector_dates in Hrow as (_ & Hmin & e & He & Hmax).
    assert (∀ col : WcsRow.t → string,
              col <$> sector_rows (DateRow.Index row) db2
              ≡ₚ col <$> sector_rows (DateRow.Index row) db1) as Hrows.
    { intros col. unfold sector_rows. by rewrite Hperm. }
    split; [exact (is_min_Permutation _ _ _ (Hrows WcsRow.begin) Hmin)|].
    exists e. split; [done|]. exact (is_max_Permutation _ _ _ (Hrows WcsRow.end_) Hmax).
  - intros [i b o] [i' b' o'] [Hmin (e & He & Hmax)] [Hmin' (e' & He' & Hmax')] Hi.
    simpl in *. subst i' o o'. f_equal.
    + by eapply is_min_unique.
    + f_equal. by eapply is_max_unique.
Qed.

Lemma get_sector_dates_Permutation_witness :
  get_sector_dates (reverse Sample2.catalog12) = get_sector_dates Sample2.catalog12.
Proof.
  apply (get_sector_dates_Permutation (reverse Sample2.catalog12) Sample2.catalog12).
  apply reverse_Permutation.
Defined.
